(** * Optional.hpp: a shallow embedding of [Optional<T>] and its contracts

    The container of [src/Optional.hpp] is a presence flag [has_value_] next
    to a raw, suitably aligned byte buffer [value_] in which a [T] is
    constructed and destroyed by hand.  The embedding keeps exactly those two
    members, puts every container at a location of a store (so that
    [operator=] can be called with [this == &other]), and records the
    constructor and destructor calls on the buffer in a trace.

    The contained type [T] is a type of values: its copy and its move
    constructor yield the value they are given and do not throw, and a
    moved-from instance is still an instance until its destructor runs.  The
    constructor that [emplace] and the forwarding constructor select from
    their arguments is a parameter, and may throw.  Locals and temporaries
    of type [T] (the [released] of [release_value], the result of
    [value() &&]) are not traced: the trace is about the buffers. *)

From stdpp Require Import base gmap strings list.

(** ** Exceptions and results of a call *)

Inductive exn : Type :=
  | runtime_error (what : string)   (* std::runtime_error(what) *)
  | foreign_exception (tag : nat).  (* whatever a constructor of T throws *)

(** The one error of the container: [throw std::runtime_error("Bad Optional access")]. *)
Definition BadAccess : exn := runtime_error "Bad Optional access".

(** A call returns, leaves by an exception, or has undefined behaviour
    (a read of an indeterminate [bool], a use of storage holding no [T]). *)
Inductive outcome (A : Type) : Type :=
  | Ret (a : A)
  | Throw (e : exn)
  | Undefined.
Arguments Ret {A} a.
Arguments Throw {A} e.
Arguments Undefined {A}.

(** ** The object *)

Abbreviation loc := nat.

(** [bool has_value_;] has no initialiser of its own: until a constructor or
    a method writes it, its value is indeterminate. *)
Inductive membool : Type :=
  | Indeterminate
  | Init (b : bool).

(** [alignas(T) uint8_t value_[sizeof(T)]{}]: either plain bytes in which no
    [T] lives, or the bytes of a [T] within its lifetime. *)
Inductive slot (T : Type) : Type :=
  | Raw
  | Live (v : T).
Arguments Raw {T}.
Arguments Live {T} v.

Record Optional (T : Type) : Type := mkOptional {
  has_value_ : membool;
  value_ : slot T
}.
Arguments mkOptional {T} _ _.
Arguments has_value_ {T} _.
Arguments value_ {T} _.

(** What the lifetime discipline of the container makes observable. *)
Inductive event (T : Type) : Type :=
  | EConstruct (l : loc) (v : T)   (* std::construct_at on the buffer of the container at l *)
  | EDestroy (l : loc) (v : T)     (* ~T() on the instance in the buffer of the container at l *)
  | EFlag (l : loc) (b : bool)     (* has_value_ = b in the container at l *)
  | ECall (v : T).                 (* fn(v) *)
Arguments EConstruct {T} l v.
Arguments EDestroy {T} l v.
Arguments EFlag {T} l b.
Arguments ECall {T} v.

Record machine (T : Type) : Type := mkMachine {
  heap : gmap loc (Optional T);
  trace : list (event T)
}.
Arguments mkMachine {T} _ _.
Arguments heap {T} _.
Arguments trace {T} _.

(** ** State, exceptions and undefined behaviour as one monad

    An exception or undefined behaviour stops the computation and keeps the
    store as it is at that point: nothing is rolled back. *)

Definition M (T A : Type) : Type := machine T → outcome A * machine T.

Definition ret {T A} (a : A) : M T A := λ σ, (Ret a, σ).

Definition bind {T A B} (c : M T A) (k : A → M T B) : M T B :=
  λ σ, match c σ with
       | (Ret a, σ') => k a σ'
       | (Throw e, σ') => (Throw e, σ')
       | (Undefined, σ') => (Undefined, σ')
       end.

Definition throw {T A} (e : exn) : M T A := λ σ, (Throw e, σ).
Definition undefined {T A} : M T A := λ σ, (Undefined, σ).

Declare Scope cpp_scope.
Delimit Scope cpp_scope with cpp.
Notation "x <- c ;; k" := (bind c (λ x, k))
  (at level 100, c at next level, right associativity) : cpp_scope.
Notation "c ;;; k" := (bind c (λ _, k))
  (at level 100, right associativity) : cpp_scope.
Open Scope cpp_scope.

Definition emit {T} (e : event T) : M T unit :=
  λ σ, (Ret tt, mkMachine (heap σ) (trace σ ++ [e])).

(** The object at [l]; a location that holds no container is a wild pointer. *)
Definition object {T} (l : loc) : M T (Optional T) :=
  λ σ, match heap σ !! l with
       | Some o => (Ret o, σ)
       | None => (Undefined, σ)
       end.

Definition put_object {T} (l : loc) (o : Optional T) : M T unit :=
  λ σ, (Ret tt, mkMachine (<[l:=o]> (heap σ)) (trace σ)).

(** *** Reads and writes of the two members *)

(** A read of [has_value_]. *)
Definition load_has_value_ {T} (this : loc) : M T bool :=
  o <- object this ;;
  match has_value_ o with
  | Init b => ret b
  | Indeterminate => undefined
  end.

(** [has_value_ = b;] *)
Definition store_has_value_ {T} (this : loc) (b : bool) : M T unit :=
  o <- object this ;;
  put_object this (mkOptional (Init b) (value_ o)) ;;;
  emit (EFlag this b).

(** [*std::launder<T>(reinterpret_cast<T*>(&value_))]: the [T] in the buffer. *)
Definition launder {T} (this : loc) : M T T :=
  o <- object this ;;
  match value_ o with
  | Live v => ret v
  | Raw => undefined
  end.

(** [std::construct_at<T>(reinterpret_cast<T*>(&value_), v)], the constructor
    of [T] having produced [v]. *)
Definition construct_at {T} (this : loc) (v : T) : M T unit :=
  o <- object this ;;
  put_object this (mkOptional (has_value_ o) (Live v)) ;;;
  emit (EConstruct this v).

(** [.~T()] on the instance in the buffer. *)
Definition destroy_at {T} (this : loc) : M T unit :=
  o <- object this ;;
  match value_ o with
  | Live v => put_object this (mkOptional (has_value_ o) Raw) ;;; emit (EDestroy this v)
  | Raw => undefined
  end.

(** A write through the [T&] that [value() &] returned. *)
Definition assign_through {T} (this : loc) (v : T) : M T unit :=
  o <- object this ;;
  match value_ o with
  | Live _ => put_object this (mkOptional (has_value_ o) (Live v))
  | Raw => undefined
  end.

(** The constructor of [T] run on forwarded arguments: it yields a value or throws. *)
Definition run_ctor {T} (r : exn + T) : M T T :=
  match r with
  | inl e => throw e
  | inr v => ret v
  end.

(** The value category and constness with which a method that takes
    [this auto&& self] sees the container. *)
Inductive value_category : Type :=
  | Lvalue        (* self : Optional&       *)
  | ConstLvalue   (* self : const Optional& *)
  | Rvalue.       (* self : Optional&&      *)

(** ** The methods of [Optional<T>] *)

Section Methods.

Context {T : Type}.

(** [auto _throw_if_inactive() const -> void] *)
Definition _throw_if_inactive (this : loc) : M T unit :=
  b <- load_has_value_ this ;;
  if b then ret tt else throw BadAccess.

(** [auto value() & -> T&]; the referent is read at once. *)
Definition value_lvalue (this : loc) : M T T :=
  _throw_if_inactive this ;;;
  launder this.

(** [auto value() const& -> const T&] *)
Definition value_const_lvalue (this : loc) : M T T :=
  _throw_if_inactive this ;;;
  launder this.

(** [auto release_value() -> T].  [T released = std::move(value())] leaves
    a moved-from instance in the buffer, which [value().~T()] then ends;
    the local [released] is handed to the caller. *)
Definition release_value (this : loc) : M T T :=
  _throw_if_inactive this ;;;
  released <- value_lvalue this ;;
  value_lvalue this ;;;
  destroy_at this ;;;
  store_has_value_ this false ;;;
  ret released.

(** [auto value() && -> T] *)
Definition value_rvalue (this : loc) : M T T :=
  release_value this.

(** [auto has_value() const -> bool] *)
Definition has_value (this : loc) : M T bool :=
  load_has_value_ this.

(** [auto clear() -> void] *)
Definition clear (this : loc) : M T unit :=
  b <- load_has_value_ this ;;
  (if b then value_lvalue this ;;; destroy_at this else ret tt) ;;;
  store_has_value_ this false.

(** [std::forward<decltype(self)>(self).value()]: overload resolution
    among the three [value()]s. *)
Definition forward_value (cat : value_category) (self : loc) : M T T :=
  match cat with
  | Lvalue => value_lvalue self
  | ConstLvalue => value_const_lvalue self
  | Rvalue => value_rvalue self
  end.

(** [auto value_or(this auto&& self, T&& val) -> T] *)
Definition value_or (cat : value_category) (self : loc) (val : T) : M T T :=
  b <- load_has_value_ self ;;
  if b then forward_value cat self else ret val.

(** [auto operator*(this auto&& self) -> decltype(auto)] *)
Definition operator_deref (cat : value_category) (self : loc) : M T T :=
  _throw_if_inactive self ;;;
  forward_value cat self.

(** [template<class O> auto operator==(const O& other) -> bool], with
    [T_eq] the [operator==] between a [T] and an [O]. *)
Definition operator_eq_value {O} (T_eq : T → O → bool) (this : loc) (other : O) : M T bool :=
  b <- load_has_value_ this ;;
  if b then v <- value_lvalue this ;; ret (T_eq v other) else ret false.

(** [template<class O> auto operator==(const Optional<O>& other) -> bool].
    [other.has_value_] is private to [Optional<O>], so the body compiles
    for [O = T] only. *)
Definition operator_eq_optional (T_eq : T → T → bool) (this other : loc) : M T bool :=
  b <- load_has_value_ this ;;
  b' <- load_has_value_ other ;;
  if eqb b b' then
    b0 <- load_has_value_ this ;;
    if negb b0 then ret true
    else v <- value_lvalue this ;; w <- value_const_lvalue other ;; ret (T_eq v w)
  else ret false.

(** [auto operator=(Optional&& other) -> Optional&]; the result is [*this]. *)
Definition operator_assign_move (this other : loc) : M T loc :=
  clear this ;;;
  b <- load_has_value_ other ;;
  (if b then
     store_has_value_ this true ;;;
     v <- release_value other ;;
     construct_at this v
   else ret tt) ;;;
  ret this.

(** [auto operator=(const Optional& other) -> Optional&] *)
Definition operator_assign_copy (this other : loc) : M T loc :=
  clear this ;;;
  b <- load_has_value_ other ;;
  (if b then
     store_has_value_ this true ;;;
     v <- value_const_lvalue other ;;
     construct_at this v
   else ret tt) ;;;
  ret this.

(** A callable [fn]: what the call returns, and what it leaves in its
    argument when that is a [T&] (the identity for a callable that takes
    its argument by value or by reference to const). *)
Record callable (R : Type) : Type := mkCallable {
  call_result : T → R;
  arg_after : T → T
}.
Arguments call_result {R} _ _.
Arguments arg_after {R} _ _.

(** [fn(std::forward<decltype(self)>(self).value())], the argument already
    evaluated to [v].  Only [value() &] hands out a mutable reference into
    the buffer; the other two give a reference to const and a temporary. *)
Definition invoke {R} (cat : value_category) (self : loc) (fn : callable R) (v : T) : M T R :=
  emit (ECall v) ;;;
  (match cat with
   | Lvalue => assign_through self (arg_after fn v)
   | ConstLvalue | Rvalue => ret tt
   end) ;;;
  ret (call_result fn v).

(** [template<class F> auto and_then(this auto&& self, F&& fn) -> decltype(self)] *)
Definition and_then {R} (cat : value_category) (self : loc) (fn : callable R) : M T loc :=
  b <- load_has_value_ self ;;
  (if b then v <- forward_value cat self ;; invoke cat self fn v ;;; ret tt
   else ret tt) ;;;
  ret self.

(** [template<class ...Args> auto emplace(Args&&... args) -> void], with
    [T_ctor] the constructor of [T] that the arguments select. *)
Definition emplace {Args} (T_ctor : Args → exn + T) (this : loc) (args : Args) : M T unit :=
  clear this ;;;
  store_has_value_ this true ;;;
  v <- run_ctor (T_ctor args) ;;
  construct_at this v.

(** *** Constructors and destructor

    A constructor runs on fresh storage at [this].  The member
    initialisers come first: [value_] is always zeroed by its [{}], and
    [has_value_] is written only where the constructor names it. *)
Definition init_members (this : loc) (flag : membool) : M T unit :=
  put_object this (mkOptional flag Raw).

(** [template<class ...Args> Optional(Args&&... args)] *)
Definition Optional_forward {Args} (T_ctor : Args → exn + T) (this : loc) (args : Args) : M T unit :=
  init_members this Indeterminate ;;;
  v <- run_ctor (T_ctor args) ;;
  construct_at this v ;;;
  store_has_value_ this true.

(** [Optional(const Optional& other)] *)
Definition Optional_copy (this other : loc) : M T unit :=
  init_members this Indeterminate ;;;
  b <- load_has_value_ other ;;
  if negb b then ret tt
  else
    v <- value_const_lvalue other ;;
    construct_at this v ;;;
    store_has_value_ this true.

(** [Optional(Optional&& other)] *)
Definition Optional_move (this other : loc) : M T unit :=
  init_members this Indeterminate ;;;
  b <- load_has_value_ other ;;
  if negb b then ret tt
  else
    v <- release_value other ;;
    construct_at this v ;;;
    store_has_value_ this true.

(** [Optional() : has_value_(false) {}] *)
Definition Optional_default (this : loc) : M T unit :=
  init_members this (Init false).

(** [Optional(const __Nullopt&) : has_value_(false) {}] *)
Definition Optional_nullopt (this : loc) : M T unit :=
  init_members this (Init false).

(** [~Optional() { clear(); }], after which the storage is gone. *)
Definition Optional_dtor (this : loc) : M T unit :=
  clear this ;;;
  λ σ, (Ret tt, mkMachine (delete this (heap σ)) (trace σ)).

End Methods.
Arguments callable : clear implicits.
Arguments mkCallable {T R} _ _.
Arguments call_result {T R} _ _.
Arguments arg_after {T R} _ _.

(** A prvalue [Optional<R>{...}]: the constructor runs on the result object,
    which is all that the caller receives. *)
Definition prvalue {R} (ctor : loc → M R unit) : outcome (Optional R) :=
  match ctor 0 (mkMachine ∅ []) with
  | (Ret _, σ) => match heap σ !! 0 with Some o => Ret o | None => Undefined end
  | (Throw e, _) => Throw e
  | (Undefined, _) => Undefined
  end.

Definition lift_outcome {T A} (r : outcome A) : M T A :=
  λ σ, (r, σ).

(** [template<class F> auto transform(this auto&& self, F&& fn) -> decltype(auto)].
    [ReturnType] is [R]; [OptionType{ fn(...) }] is the forwarding constructor
    of [Optional<R>] on an [R&&], [OptionType{}] its default constructor. *)
Definition transform {T R} (cat : value_category) (self : loc) (fn : callable T R)
    : M T (Optional R) :=
  b <- load_has_value_ self ;;
  if b then
    v <- forward_value cat self ;;
    r <- invoke cat self fn v ;;
    lift_outcome (prvalue (λ this, Optional_forward (λ x : R, inr x) this r))
  else
    lift_outcome (prvalue Optional_default).

(** * Reasoning about runs *)

(** ** Descriptions of a container in the store *)

(** The container at [l] is empty: the flag is false and no [T] lives in the buffer. *)
Definition vacant {T} (σ : machine T) (l : loc) : Prop :=
  heap σ !! l = Some (mkOptional (Init false) Raw).

(** The container at [l] is present and holds [v]. *)
Definition holds {T} (σ : machine T) (l : loc) (v : T) : Prop :=
  heap σ !! l = Some (mkOptional (Init true) (Live v)).

(** Invariant I1 of the data model on one object. *)
Definition well_formed {T} (o : Optional T) : Prop :=
  match has_value_ o, value_ o with
  | Init true, Live _ => True
  | Init false, Raw => True
  | _, _ => False
  end.

(** The store [σ] with the container at [l] replaced and events appended. *)
Definition update {T} (σ : machine T) (l : loc) (o : Optional T) (es : list (event T)) : machine T :=
  mkMachine (<[l:=o]> (heap σ)) (trace σ ++ es).

(** The [~T()] calls that emptying a container makes. *)
Definition destructions {T} (l : loc) (o : Optional T) : list (event T) :=
  match value_ o with
  | Live v => [EDestroy l v]
  | Raw => []
  end.

(** How often the stored instance of the container at [l] is destroyed, how
    often a [T] is constructed into its buffer, and how often [fn] is called,
    in a list of events. *)
Definition is_destroy {T} (l : loc) (e : event T) : bool :=
  match e with EDestroy l' _ => Nat.eqb l' l | _ => false end.

Definition is_construct {T} (l : loc) (e : event T) : bool :=
  match e with EConstruct l' _ => Nat.eqb l' l | _ => false end.

Definition is_call {T} (e : event T) : bool :=
  match e with ECall _ => true | _ => false end.

Definition destroy_count {T} (l : loc) (es : list (event T)) : nat :=
  length (List.filter (is_destroy l) es).

Definition construct_count {T} (l : loc) (es : list (event T)) : nat :=
  length (List.filter (is_construct l) es).

Definition call_count {T} (es : list (event T)) : nat :=
  length (List.filter is_call es).

(** The store [σ] with events appended and no object touched. *)
Definition log {T} (σ : machine T) (es : list (event T)) : machine T :=
  mkMachine (heap σ) (trace σ ++ es).

(** The store after [fn(std::forward<decltype(self)>(self).value())] on a
    container at [self] that held [v]: a mutable lvalue lets [fn] write to
    the stored instance, a const lvalue changes nothing, an rvalue has its
    value released before the call. *)
Definition after_invoke {T R} (cat : value_category) (σ : machine T) (self : loc)
    (fn : callable T R) (v : T) : machine T :=
  match cat with
  | Lvalue => update σ self (mkOptional (Init true) (Live (arg_after fn v))) [ECall v]
  | ConstLvalue => log σ [ECall v]
  | Rvalue => update σ self (mkOptional (Init false) Raw)
                [EDestroy self v; EFlag self false; ECall v]
  end.

(** The events that a run from [σ] to [σ'] appended. *)
Definition since {T} (σ σ' : machine T) : list (event T) :=
  drop (length (trace σ)) (trace σ').

(** What a run leaves behind, and what it returned. *)
Definition result {T A} (r : outcome A * machine T) : outcome A := fst r.
Definition final {T A} (r : outcome A * machine T) : machine T := snd r.

(** ** Concrete stores of [Optional<int>] *)

Definition empty_int : Optional Z := mkOptional (Init false) Raw.
Definition some_int (n : Z) : Optional Z := mkOptional (Init true) (Live n).

(** One container at 0: empty, or holding 42. *)
Definition store_empty : machine Z := mkMachine {[0 := empty_int]} [].
Definition store_42 : machine Z := mkMachine {[0 := some_int 42]} [].

(** Two containers, at 0 and at 1. *)
Definition store_42_7 : machine Z := mkMachine (<[1 := some_int 7]> {[0 := some_int 42]}) [].
Definition store_42_empty : machine Z := mkMachine (<[1 := empty_int]> {[0 := some_int 42]}) [].

(** [[](int x){ return x*2; }] *)
Definition double : callable Z Z := mkCallable (λ x, (x * 2)%Z) (λ x, x).

(** [[](int& x){ x += 1; return x; }] *)
Definition bump : callable Z Z := mkCallable (λ x, (x + 1)%Z) (λ x, (x + 1)%Z).

(** A contained type whose constructor rejects negative arguments by throwing. *)
Definition checked_ctor (n : Z) : exn + Z :=
  if (n <? 0)%Z then inl (foreign_exception 1) else inr n.

(** [operator==] of [int]. *)
Definition int_eq (x y : Z) : bool := (x =? y)%Z.

(** ** Further members and descriptions of runs *)

(** [explicit operator bool() const] *)
Definition operator_bool {T} (this : loc) : M T bool :=
  load_has_value_ this.

(** A computation that leaves the store, trace included, as it found it,
    however it ends. *)
Definition read_only {T A} (c : M T A) : Prop :=
  ∀ σ, final (c σ) = σ.

(** A computation that changes no container other than those at [l1] and
    [l2], however it ends. *)
Definition touches_only {T A} (l1 l2 : loc) (c : M T A) : Prop :=
  ∀ σ l, l ≠ l1 → l ≠ l2 → heap (final (c σ)) !! l = heap σ !! l.

(** Invariant I1 on every container of the store. *)
Definition wf_store {T} (σ : machine T) : Prop :=
  ∀ l o, heap σ !! l = Some o → well_formed o.

(** The number of [T]s alive in the buffer of the container at [l]. *)
Definition live_at {T} (σ : machine T) (l : loc) : nat :=
  match heap σ !! l with
  | Some o => match value_ o with Live _ => 1 | Raw => 0 end
  | None => 0
  end.


(** ** One step of a run *)

Section Steps.

Context {T : Type}.
Implicit Types (σ : machine T) (o : Optional T) (l this other : loc) (v : T).

Lemma bind_Ret {A B} (c : M T A) (k : A → M T B) σ a σ' :
  c σ = (Ret a, σ') → bind c k σ = k a σ'.
Proof. unfold bind. by intros ->. Qed.

Lemma bind_Throw {A B} (c : M T A) (k : A → M T B) σ e σ' :
  c σ = (Throw e, σ') → bind c k σ = (Throw e, σ').
Proof. unfold bind. by intros ->. Qed.

Lemma bind_Undefined {A B} (c : M T A) (k : A → M T B) σ σ' :
  c σ = (Undefined, σ') → bind c k σ = (Undefined, σ').
Proof. unfold bind. by intros ->. Qed.

Lemma update_update σ l o o' es es' :
  update (update σ l o es) l o' es' = update σ l o' (es ++ es').
Proof.
  unfold update. cbn. by rewrite insert_insert_eq, app_assoc.
Qed.

Lemma update_lookup σ l o es : heap (update σ l o es) !! l = Some o.
Proof. unfold update. cbn. apply lookup_insert_eq. Qed.

Lemma update_lookup_ne σ l l' o es :
  l ≠ l' → heap (update σ l o es) !! l' = heap σ !! l'.
Proof. intros. unfold update. cbn. by apply lookup_insert_ne. Qed.

Lemma update_trace σ l o es : trace (update σ l o es) = trace σ ++ es.
Proof. done. Qed.

Lemma update_id σ l o : heap σ !! l = Some o → update σ l o [] = σ.
Proof.
  intros H. destruct σ as [h t]. unfold update. cbn in *.
  by rewrite insert_id, app_nil_r.
Qed.

Lemma load_has_value__run σ this b s :
  heap σ !! this = Some (mkOptional (Init b) s) →
  load_has_value_ this σ = (Ret b, σ).
Proof. intros H. unfold load_has_value_, bind, object. by rewrite H. Qed.

Lemma load_has_value__indeterminate σ this s :
  heap σ !! this = Some (mkOptional Indeterminate s) →
  load_has_value_ this σ = (Undefined, σ).
Proof. intros H. unfold load_has_value_, bind, object. by rewrite H. Qed.

Lemma store_has_value__run σ this o b :
  heap σ !! this = Some o →
  store_has_value_ this b σ
  = (Ret tt, update σ this (mkOptional (Init b) (value_ o)) [EFlag this b]).
Proof. intros H. unfold store_has_value_, bind, object. by rewrite H. Qed.

Lemma launder_run σ this f v :
  heap σ !! this = Some (mkOptional f (Live v)) →
  launder this σ = (Ret v, σ).
Proof. intros H. unfold launder, bind, object. by rewrite H. Qed.

Lemma launder_raw σ this f :
  heap σ !! this = Some (mkOptional f Raw) →
  launder this σ = (Undefined, σ).
Proof. intros H. unfold launder, bind, object. by rewrite H. Qed.

Lemma construct_at_run σ this o v :
  heap σ !! this = Some o →
  construct_at this v σ
  = (Ret tt, update σ this (mkOptional (has_value_ o) (Live v)) [EConstruct this v]).
Proof. intros H. unfold construct_at, bind, object. by rewrite H. Qed.

Lemma destroy_at_run σ this f v :
  heap σ !! this = Some (mkOptional f (Live v)) →
  destroy_at this σ = (Ret tt, update σ this (mkOptional f Raw) [EDestroy this v]).
Proof. intros H. unfold destroy_at, bind, object. by rewrite H. Qed.

Lemma assign_through_run σ this f v w :
  heap σ !! this = Some (mkOptional f (Live v)) →
  assign_through this w σ = (Ret tt, update σ this (mkOptional f (Live w)) []).
Proof.
  intros H. unfold assign_through, bind, object, put_object, update.
  rewrite H. cbn. by rewrite app_nil_r.
Qed.

End Steps.

(** ** Runs of the methods *)

Ltac lookup_now :=
  first
    [ eassumption
    | apply update_lookup
    | rewrite update_lookup_ne by congruence; lookup_now ].

Ltac prim_run :=
  first
    [ eapply load_has_value__run
    | eapply store_has_value__run
    | eapply launder_run
    | eapply construct_at_run
    | eapply destroy_at_run
    | eapply assign_through_run ];
  lookup_now.

Ltac tidy :=
  cbn [value_ has_value_];
  rewrite ?update_update; cbn [app].

Section Runs.

Context {T : Type}.
Implicit Types (σ : machine T) (o : Optional T) (l this other self : loc) (v : T).

Lemma _throw_if_inactive_active σ this s :
  heap σ !! this = Some (mkOptional (Init true) s) →
  _throw_if_inactive this σ = (Ret tt, σ).
Proof.
  intros H. unfold _throw_if_inactive.
  by erewrite bind_Ret by prim_run.
Qed.

Lemma _throw_if_inactive_inactive σ this s :
  heap σ !! this = Some (mkOptional (Init false) s) →
  _throw_if_inactive this σ = (Throw BadAccess, σ).
Proof.
  intros H. unfold _throw_if_inactive.
  by erewrite bind_Ret by prim_run.
Qed.

Lemma value_lvalue_holds σ this v :
  holds σ this v → value_lvalue this σ = (Ret v, σ).
Proof.
  unfold holds. intros H. unfold value_lvalue.
  erewrite bind_Ret by (eapply _throw_if_inactive_active; lookup_now).
  prim_run.
Qed.

Lemma value_lvalue_inactive σ this s :
  heap σ !! this = Some (mkOptional (Init false) s) →
  value_lvalue this σ = (Throw BadAccess, σ).
Proof.
  intros H. unfold value_lvalue.
  by erewrite bind_Throw by (eapply _throw_if_inactive_inactive; lookup_now).
Qed.

Lemma value_const_lvalue_holds σ this v :
  holds σ this v → value_const_lvalue this σ = (Ret v, σ).
Proof. apply value_lvalue_holds. Qed.

Lemma value_const_lvalue_inactive σ this s :
  heap σ !! this = Some (mkOptional (Init false) s) →
  value_const_lvalue this σ = (Throw BadAccess, σ).
Proof. apply value_lvalue_inactive. Qed.

Lemma release_value_holds σ this v :
  holds σ this v →
  release_value this σ
  = (Ret v, update σ this (mkOptional (Init false) Raw) [EDestroy this v; EFlag this false]).
Proof.
  intros H. unfold release_value.
  erewrite bind_Ret by (eapply _throw_if_inactive_active; apply H).
  erewrite bind_Ret by (by apply value_lvalue_holds).
  erewrite bind_Ret by (by apply value_lvalue_holds).
  erewrite bind_Ret by (eapply destroy_at_run; apply H).
  erewrite bind_Ret by prim_run.
  by tidy.
Qed.

Lemma release_value_inactive σ this s :
  heap σ !! this = Some (mkOptional (Init false) s) →
  release_value this σ = (Throw BadAccess, σ).
Proof.
  intros H. unfold release_value.
  by erewrite bind_Throw by (eapply _throw_if_inactive_inactive; lookup_now).
Qed.

Lemma clear_run σ this o :
  heap σ !! this = Some o → well_formed o →
  clear this σ
  = (Ret tt, update σ this (mkOptional (Init false) Raw)
               (destructions this o ++ [EFlag this false])).
Proof.
  intros H Hwf. destruct o as [[|[]] [|v]]; try done; unfold clear.
  - erewrite bind_Ret by prim_run.
    erewrite bind_Ret.
    2:{ erewrite bind_Ret by (by apply value_lvalue_holds). prim_run. }
    erewrite store_has_value__run by lookup_now. by tidy.
  - erewrite bind_Ret by prim_run.
    erewrite bind_Ret by reflexivity.
    by erewrite store_has_value__run by lookup_now.
Qed.

End Runs.

Section ForwardingRuns.

Context {T : Type}.
Implicit Types (σ : machine T) (o : Optional T) (l this other self : loc) (v : T).

Lemma log_update σ l o es es' : log (update σ l o es) es' = update σ l o (es ++ es').
Proof. unfold log, update. cbn. by rewrite app_assoc. Qed.

Lemma log_nil σ : log σ [] = σ.
Proof. destruct σ. unfold log. cbn. by rewrite app_nil_r. Qed.

Lemma emit_run σ (e : event T) : emit e σ = (Ret tt, log σ [e]).
Proof. done. Qed.

Lemma forward_value_holds cat σ self v :
  holds σ self v →
  forward_value cat self σ
  = (Ret v, match cat with
            | Rvalue => update σ self (mkOptional (Init false) Raw)
                          [EDestroy self v; EFlag self false]
            | _ => σ
            end).
Proof.
  intros H. destruct cat; cbn [forward_value].
  - by apply value_lvalue_holds.
  - by apply value_const_lvalue_holds.
  - by apply release_value_holds.
Qed.

Lemma invoke_lvalue {R} σ self (fn : callable T R) f v w :
  heap σ !! self = Some (mkOptional f (Live w)) →
  invoke Lvalue self fn v σ
  = (Ret (call_result fn v), update σ self (mkOptional f (Live (arg_after fn v))) [ECall v]).
Proof.
  intros H. unfold invoke.
  erewrite bind_Ret by apply emit_run.
  erewrite bind_Ret by (eapply assign_through_run; apply H).
  unfold ret, log, update. cbn. by rewrite app_nil_r.
Qed.

Lemma invoke_by_value {R} cat σ self (fn : callable T R) v :
  cat ≠ Lvalue →
  invoke cat self fn v σ = (Ret (call_result fn v), log σ [ECall v]).
Proof. by destruct cat. Qed.

Lemma invoke_after_forward {R} cat σ self (fn : callable T R) v :
  holds σ self v →
  bind (forward_value cat self) (λ x, invoke cat self fn x) σ
  = (Ret (call_result fn v), after_invoke cat σ self fn v).
Proof.
  intros H. erewrite bind_Ret by (by apply forward_value_holds).
  destruct cat; cbn [after_invoke].
  - by erewrite invoke_lvalue by apply H.
  - by rewrite invoke_by_value.
  - rewrite invoke_by_value by done. by rewrite log_update.
Qed.

Lemma prvalue_forward {R} (r : R) :
  prvalue (λ this, Optional_forward (λ x : R, inr x) this r)
  = Ret (mkOptional (Init true) (Live r)).
Proof. reflexivity. Qed.

Lemma prvalue_default {R} :
  prvalue (Optional_default (T:=R)) = Ret (mkOptional (Init false) Raw).
Proof. reflexivity. Qed.

Lemma value_or_holds cat σ self v (val : T) :
  holds σ self v →
  value_or cat self val σ
  = (Ret v, match cat with
            | Rvalue => update σ self (mkOptional (Init false) Raw)
                          [EDestroy self v; EFlag self false]
            | _ => σ
            end).
Proof.
  intros H. unfold value_or.
  erewrite bind_Ret by (eapply load_has_value__run; apply H).
  by apply forward_value_holds.
Qed.

Lemma value_or_vacant cat σ self (val : T) :
  vacant σ self → value_or cat self val σ = (Ret val, σ).
Proof.
  intros H. unfold value_or.
  by erewrite bind_Ret by (eapply load_has_value__run; apply H).
Qed.

Lemma and_then_holds {R} cat σ self (fn : callable T R) v :
  holds σ self v →
  and_then cat self fn σ = (Ret self, after_invoke cat σ self fn v).
Proof.
  intros H. unfold and_then.
  erewrite bind_Ret by (eapply load_has_value__run; apply H).
  erewrite bind_Ret; [reflexivity |].
  pose proof (invoke_after_forward cat σ self fn v H) as Hrun.
  unfold bind in *.
  destruct (forward_value cat self σ) as [[x| |] σ1]; try done.
  by rewrite Hrun.
Qed.

Lemma and_then_vacant {R} cat σ self (fn : callable T R) :
  vacant σ self → and_then cat self fn σ = (Ret self, σ).
Proof.
  intros H. unfold and_then.
  by erewrite bind_Ret by (eapply load_has_value__run; apply H).
Qed.

Lemma transform_holds {R} cat σ self (fn : callable T R) v :
  holds σ self v →
  transform cat self fn σ
  = (Ret (mkOptional (Init true) (Live (call_result fn v))), after_invoke cat σ self fn v).
Proof.
  intros H. unfold transform.
  erewrite bind_Ret by (eapply load_has_value__run; apply H).
  pose proof (invoke_after_forward cat σ self fn v H) as Hrun.
  unfold bind in *.
  destruct (forward_value cat self σ) as [[x| |] σ1]; try done.
  rewrite Hrun. by rewrite prvalue_forward.
Qed.

Lemma transform_vacant {R} cat σ self (fn : callable T R) :
  vacant σ self →
  transform cat self fn σ = (Ret (mkOptional (Init false) Raw), σ).
Proof.
  intros H. unfold transform.
  erewrite bind_Ret by (eapply load_has_value__run; apply H).
  by rewrite prvalue_default.
Qed.

End ForwardingRuns.

Section MutatorRuns.

Context {T : Type}.
Implicit Types (σ : machine T) (o d : Optional T) (l this other self : loc) (v : T).

Lemma init_members_run σ this f :
  init_members this f σ = (Ret tt, update σ this (mkOptional f Raw) []).
Proof. unfold init_members, put_object, update. by rewrite app_nil_r. Qed.

Lemma emplace_run {Args} (T_ctor : Args → exn + T) σ this d args v :
  heap σ !! this = Some d → well_formed d → T_ctor args = inr v →
  emplace T_ctor this args σ
  = (Ret tt, update σ this (mkOptional (Init true) (Live v))
               (destructions this d ++ [EFlag this false; EFlag this true; EConstruct this v])).
Proof.
  intros H Hwf Hv. unfold emplace.
  erewrite bind_Ret by (by apply clear_run).
  erewrite bind_Ret by prim_run.
  rewrite Hv. erewrite bind_Ret by reflexivity.
  erewrite construct_at_run by lookup_now.
  tidy. by rewrite <- !app_assoc.
Qed.

Lemma emplace_throws {Args} (T_ctor : Args → exn + T) σ this d args e :
  heap σ !! this = Some d → well_formed d → T_ctor args = inl e →
  emplace T_ctor this args σ
  = (Throw e, update σ this (mkOptional (Init true) Raw)
                (destructions this d ++ [EFlag this false; EFlag this true])).
Proof.
  intros H Hwf He. unfold emplace.
  erewrite bind_Ret by (by apply clear_run).
  erewrite bind_Ret by prim_run.
  rewrite He. erewrite bind_Throw by reflexivity.
  tidy. by rewrite <- !app_assoc.
Qed.

Lemma Optional_forward_run {Args} (T_ctor : Args → exn + T) σ this args v :
  T_ctor args = inr v →
  Optional_forward T_ctor this args σ
  = (Ret tt, update σ this (mkOptional (Init true) (Live v))
               [EConstruct this v; EFlag this true]).
Proof.
  intros Hv. unfold Optional_forward.
  erewrite bind_Ret by apply init_members_run.
  rewrite Hv. erewrite bind_Ret by reflexivity.
  erewrite bind_Ret by prim_run.
  erewrite store_has_value__run by lookup_now.
  by tidy.
Qed.

Lemma Optional_forward_throws {Args} (T_ctor : Args → exn + T) σ this args e :
  T_ctor args = inl e →
  Optional_forward T_ctor this args σ
  = (Throw e, update σ this (mkOptional Indeterminate Raw) []).
Proof.
  intros He. unfold Optional_forward.
  erewrite bind_Ret by apply init_members_run.
  rewrite He. by erewrite bind_Throw by reflexivity.
Qed.

Lemma Optional_copy_holds σ this other v :
  this ≠ other → holds σ other v →
  Optional_copy this other σ
  = (Ret tt, update σ this (mkOptional (Init true) (Live v))
               [EConstruct this v; EFlag this true]).
Proof.
  intros Hne H. unfold Optional_copy.
  erewrite bind_Ret by apply init_members_run.
  erewrite bind_Ret by (eapply load_has_value__run; rewrite update_lookup_ne by done; apply H).
  cbn [negb].
  erewrite bind_Ret
    by (apply value_const_lvalue_holds; unfold holds; by rewrite update_lookup_ne).
  erewrite bind_Ret by prim_run.
  erewrite store_has_value__run by lookup_now.
  by tidy.
Qed.

Lemma Optional_copy_vacant σ this other :
  this ≠ other → vacant σ other →
  Optional_copy this other σ
  = (Ret tt, update σ this (mkOptional Indeterminate Raw) []).
Proof.
  intros Hne H. unfold Optional_copy.
  erewrite bind_Ret by apply init_members_run.
  by erewrite bind_Ret
    by (eapply load_has_value__run; rewrite update_lookup_ne by done; apply H).
Qed.

Lemma Optional_move_holds σ this other v :
  this ≠ other → holds σ other v →
  Optional_move this other σ
  = (Ret tt,
     update
       (update (update σ this (mkOptional Indeterminate Raw) [])
          other (mkOptional (Init false) Raw) [EDestroy other v; EFlag other false])
       this (mkOptional (Init true) (Live v)) [EConstruct this v; EFlag this true]).
Proof.
  intros Hne H. unfold Optional_move.
  erewrite bind_Ret by apply init_members_run.
  erewrite bind_Ret by (eapply load_has_value__run; rewrite update_lookup_ne by done; apply H).
  cbn [negb].
  erewrite bind_Ret
    by (apply release_value_holds; unfold holds; by rewrite update_lookup_ne).
  erewrite bind_Ret by prim_run.
  erewrite store_has_value__run by lookup_now.
  by tidy.
Qed.

Lemma Optional_move_vacant σ this other :
  this ≠ other → vacant σ other →
  Optional_move this other σ
  = (Ret tt, update σ this (mkOptional Indeterminate Raw) []).
Proof.
  intros Hne H. unfold Optional_move.
  erewrite bind_Ret by apply init_members_run.
  by erewrite bind_Ret
    by (eapply load_has_value__run; rewrite update_lookup_ne by done; apply H).
Qed.

(** Both assignments when [other], looked at after [clear()], is empty:
    that is an empty source, and it is [other] being [*this]. *)
Lemma operator_assign_copy_no_source σ this other d :
  heap σ !! this = Some d → well_formed d →
  this = other ∨ vacant σ other →
  operator_assign_copy this other σ
  = (Ret this, update σ this (mkOptional (Init false) Raw)
                 (destructions this d ++ [EFlag this false])).
Proof.
  intros H Hwf Hsrc. unfold operator_assign_copy.
  erewrite bind_Ret by (by apply clear_run).
  erewrite bind_Ret; [| eapply load_has_value__run with (b := false)].
  - by erewrite bind_Ret by reflexivity.
  - destruct (decide (this = other)) as [<-|Hne]; [apply update_lookup |].
    destruct Hsrc as [|Hv]; [done |]. by rewrite update_lookup_ne.
Qed.

Lemma operator_assign_move_no_source σ this other d :
  heap σ !! this = Some d → well_formed d →
  this = other ∨ vacant σ other →
  operator_assign_move this other σ
  = (Ret this, update σ this (mkOptional (Init false) Raw)
                 (destructions this d ++ [EFlag this false])).
Proof.
  intros H Hwf Hsrc. unfold operator_assign_move.
  erewrite bind_Ret by (by apply clear_run).
  erewrite bind_Ret; [| eapply load_has_value__run with (b := false)].
  - by erewrite bind_Ret by reflexivity.
  - destruct (decide (this = other)) as [<-|Hne]; [apply update_lookup |].
    destruct Hsrc as [|Hv]; [done |]. by rewrite update_lookup_ne.
Qed.

Lemma operator_assign_copy_holds σ this other d v :
  heap σ !! this = Some d → well_formed d →
  this ≠ other → holds σ other v →
  operator_assign_copy this other σ
  = (Ret this, update σ this (mkOptional (Init true) (Live v))
                 (destructions this d ++ [EFlag this false; EFlag this true; EConstruct this v])).
Proof.
  intros H Hwf Hne Ho. unfold operator_assign_copy.
  erewrite bind_Ret by (by apply clear_run).
  erewrite bind_Ret by (eapply load_has_value__run; rewrite update_lookup_ne by done; apply Ho).
  erewrite bind_Ret; [reflexivity |].
  erewrite bind_Ret by prim_run.
  erewrite bind_Ret
    by (apply value_const_lvalue_holds; unfold holds; rewrite !update_lookup_ne by done; apply Ho).
  erewrite construct_at_run by lookup_now.
  tidy. by rewrite <- !app_assoc.
Qed.

Lemma operator_assign_move_holds σ this other d v :
  heap σ !! this = Some d → well_formed d →
  this ≠ other → holds σ other v →
  operator_assign_move this other σ
  = (Ret this,
     update
       (update
          (update σ this (mkOptional (Init true) Raw)
             (destructions this d ++ [EFlag this false; EFlag this true]))
          other (mkOptional (Init false) Raw) [EDestroy other v; EFlag other false])
       this (mkOptional (Init true) (Live v)) [EConstruct this v]).
Proof.
  intros H Hwf Hne Ho. unfold operator_assign_move.
  erewrite bind_Ret by (by apply clear_run).
  erewrite bind_Ret by (eapply load_has_value__run; rewrite update_lookup_ne by done; apply Ho).
  erewrite bind_Ret; [reflexivity |].
  erewrite bind_Ret by prim_run.
  erewrite bind_Ret
    by (apply release_value_holds; unfold holds; rewrite !update_lookup_ne by done; apply Ho).
  erewrite construct_at_run by lookup_now.
  tidy. by rewrite <- !app_assoc.
Qed.

Lemma operator_eq_value_run {O} (T_eq : T → O → bool) σ this o (x : O) :
  heap σ !! this = Some o → well_formed o →
  operator_eq_value T_eq this x σ
  = (Ret (match value_ o with Live v => T_eq v x | Raw => false end), σ).
Proof.
  intros H Hwf. destruct o as [[|[]] [|v]]; try done; unfold operator_eq_value.
  - erewrite bind_Ret by prim_run. cbv beta iota.
    by erewrite bind_Ret by (by apply value_lvalue_holds).
  - by erewrite bind_Ret by prim_run.
Qed.

Lemma operator_eq_optional_run (T_eq : T → T → bool) σ this other a b :
  heap σ !! this = Some a → well_formed a →
  heap σ !! other = Some b → well_formed b →
  operator_eq_optional T_eq this other σ
  = (Ret (match value_ a, value_ b with
          | Raw, Raw => true
          | Live v, Live w => T_eq v w
          | _, _ => false
          end), σ).
Proof.
  intros Ha Hwa Hb Hwb.
  destruct a as [[|[]] [|v]]; try done; destruct b as [[|[]] [|w]]; try done;
    unfold operator_eq_optional;
    erewrite bind_Ret by (eapply load_has_value__run; apply Ha);
    erewrite bind_Ret by (eapply load_has_value__run; apply Hb);
    cbn [eqb]; cbv beta iota; try done;
    erewrite bind_Ret by (eapply load_has_value__run; apply Ha);
    cbn [negb]; cbv beta iota; try done.
  erewrite bind_Ret by (by apply value_lvalue_holds).
  by erewrite bind_Ret by (by apply value_const_lvalue_holds).
Qed.

End MutatorRuns.

(** * The contracts of the container *)

Section Contracts.

Context {T : Type}.
Implicit Types (σ : machine T) (o : Optional T) (l this other self : loc) (v : T).

Lemma since_update σ l o es : since σ (update σ l o es) = es.
Proof. unfold since, update. cbn. by rewrite drop_app_length. Qed.

Lemma since_refl σ : since σ σ = [].
Proof. unfold since. by rewrite drop_all. Qed.

Lemma since_log σ es : since σ (log σ es) = es.
Proof. unfold since, log. cbn. by rewrite drop_app_length. Qed.

Lemma since_extend σ σ' l o es es' :
  trace σ' = trace σ ++ es → since σ (update σ' l o es') = es ++ es'.
Proof.
  intros H. unfold since, update. cbn. rewrite H, <- app_assoc.
  by rewrite drop_app_length.
Qed.

Lemma calls_after_invoke {R} cat σ self (fn : callable T R) v :
  List.filter is_call (since σ (after_invoke cat σ self fn v)) = [ECall v].
Proof.
  destruct cat; cbn [after_invoke]; by rewrite ?since_update, ?since_log.
Qed.

(** C1. On an empty container, [value()] in each of its three overloads and
    [release_value()] throw [BadAccess], and the whole store, trace of
    constructor and destructor calls included, is what it was before the
    call; the container still reports no value. *)
Theorem checked_access_on_empty_throws σ this s :
  heap σ !! this = Some (mkOptional (Init false) s) →
  value_lvalue this σ = (Throw BadAccess, σ) ∧
  value_const_lvalue this σ = (Throw BadAccess, σ) ∧
  value_rvalue this σ = (Throw BadAccess, σ) ∧
  release_value this σ = (Throw BadAccess, σ) ∧
  has_value this σ = (Ret false, σ).
Proof.
  intros H. repeat split.
  - by eapply value_lvalue_inactive.
  - by eapply value_const_lvalue_inactive.
  - by eapply release_value_inactive.
  - by eapply release_value_inactive.
  - by eapply load_has_value__run.
Qed.

(** C4. On a container holding [v], [release_value()] returns [v]; the run
    appends one [~T()] on the stored instance and then the write of the
    flag, leaves the container empty, and a second [release_value()] throws
    [BadAccess]. *)
Theorem release_value_returns_and_empties σ this v :
  holds σ this v →
  let σ' := final (release_value this σ) in
  result (release_value this σ) = Ret v ∧
  since σ σ' = [EDestroy this v; EFlag this false] ∧
  destroy_count this (since σ σ') = 1 ∧
  vacant σ' this ∧
  release_value this σ' = (Throw BadAccess, σ').
Proof.
  intros H. rewrite (release_value_holds _ _ _ H). cbn [final result fst snd].
  rewrite since_update. repeat split.
  - unfold destroy_count. cbn. by rewrite Nat.eqb_refl.
  - apply update_lookup.
  - eapply release_value_inactive, update_lookup.
Qed.

(** C5. [transform(fn)] on a container holding [v] calls [fn] once, on [v],
    and returns a present container of the mapped type holding [fn(v)]; on
    an empty container it returns an empty container of the mapped type and
    leaves the store, the trace of calls included, untouched: [fn] is not
    called.  This holds for each way of seeing the container. *)
Theorem transform_maps_present_and_keeps_empty {R} cat σ self (fn : callable T R) :
  (∀ v, holds σ self v →
     result (transform cat self fn σ)
     = Ret (mkOptional (Init true) (Live (call_result fn v))) ∧
     List.filter is_call (since σ (final (transform cat self fn σ))) = [ECall v]) ∧
  (vacant σ self →
     transform cat self fn σ = (Ret (mkOptional (Init false) Raw), σ) ∧
     call_count (since σ (final (transform cat self fn σ))) = 0).
Proof.
  split.
  - intros v H. rewrite (transform_holds _ _ _ _ _ H). cbn [result final fst snd].
    split; [done | apply calls_after_invoke].
  - intros H. rewrite (transform_vacant _ _ _ _ H). cbn [final snd].
    by rewrite since_refl.
Qed.

(** C6, as the code has it.  [and_then(fn)] calls [fn] once, on the contained
    value, when the container is present, and not at all (and without an
    error, the store untouched) when it is empty; whatever [fn] returns, the
    result is the container itself.  Seen as an lvalue, const or not, a
    present container is still present afterwards; seen as an rvalue, its
    value was released for the call and the container is empty afterwards. *)
Theorem and_then_calls_exactly_when_present {R} cat σ self (fn : callable T R) :
  (∀ v, holds σ self v →
     let σ' := final (and_then cat self fn σ) in
     result (and_then cat self fn σ) = Ret self ∧
     List.filter is_call (since σ σ') = [ECall v] ∧
     (cat ≠ Rvalue → has_value self σ' = (Ret true, σ')) ∧
     (cat = Rvalue → has_value self σ' = (Ret false, σ') ∧ vacant σ' self)) ∧
  (vacant σ self → and_then cat self fn σ = (Ret self, σ)).
Proof.
  split; [| apply and_then_vacant].
  intros v H. rewrite (and_then_holds _ _ _ _ _ H). cbn [result final fst snd].
  split; [done |]. split; [apply calls_after_invoke |].
  destruct cat; cbn [after_invoke]; (split; [intros Hc | intros Hc]); try done.
  - eapply load_has_value__run, update_lookup.
  - by eapply load_has_value__run.
  - split; [eapply load_has_value__run |]; apply update_lookup.
Qed.

(** C8. [value_or(f)] returns the contained value of a present container and
    [f] for an empty one, leaving the empty one untouched; in neither case
    does the call throw or run into undefined behaviour. *)
Theorem value_or_returns_value_or_fallback cat σ self (f : T) :
  (∀ v, holds σ self v → result (value_or cat self f σ) = Ret v) ∧
  (vacant σ self → value_or cat self f σ = (Ret f, σ)).
Proof.
  split; [| apply value_or_vacant].
  intros v H. by rewrite (value_or_holds _ _ _ _ _ H).
Qed.

(** C9. Against a bare value, [operator==] answers true exactly when the
    container is present and [T]'s [operator==] holds between its value and
    the given one.  Between two containers it answers true exactly when both
    are empty, or both are present and [T]'s [operator==] holds between
    their values.  Neither comparison throws or changes the store. *)
Theorem equality_compares_presence_then_values {O} (T_eq : T → O → bool)
    (T_eq' : T → T → bool) σ this other a b (x : O) :
  heap σ !! this = Some a → well_formed a →
  heap σ !! other = Some b → well_formed b →
  (∃ r, operator_eq_value T_eq this x σ = (Ret r, σ) ∧
        (r = true ↔ ∃ v, holds σ this v ∧ T_eq v x = true)) ∧
  (∃ r, operator_eq_optional T_eq' this other σ = (Ret r, σ) ∧
        (r = true ↔
           (vacant σ this ∧ vacant σ other) ∨
           (∃ v w, holds σ this v ∧ holds σ other w ∧ T_eq' v w = true))).
Proof.
  intros Ha Hwa Hb Hwb. split.
  - eexists. split; [by apply operator_eq_value_run |].
    unfold holds. rewrite Ha.
    destruct a as [[|[]] [|v]]; try done; cbn [value_]; split.
    + intros Hr. by exists v.
    + intros (w & [= ->] & Hr). done.
    + done.
    + by intros (w & [=] & _).
  - eexists. split; [by eapply operator_eq_optional_run |].
    unfold holds, vacant. rewrite Ha, Hb.
    destruct a as [[|[]] [|v]]; try done; destruct b as [[|[]] [|w]]; try done;
      cbn [value_]; split; try done.
    + intros Hr. right. by exists v, w.
    + intros [[[=] _] | (v' & w' & [= ->] & [= ->] & Hr)]. done.
    + intros [[[=] _] | (v' & w' & _ & [=] & _)].
    + intros [[_ [=]] | (v' & w' & [=] & _ & _)].
    + intros _. by left.
Qed.

(** Two consequences for containers of one type: two empty containers
    compare equal, and a present and an empty container compare unequal,
    whichever is on the left. *)
Lemma equality_of_empty_and_present (T_eq : T → T → bool) σ this other v :
  (vacant σ this → vacant σ other →
     operator_eq_optional T_eq this other σ = (Ret true, σ)) ∧
  (holds σ this v → vacant σ other →
     operator_eq_optional T_eq this other σ = (Ret false, σ)) ∧
  (vacant σ this → holds σ other v →
     operator_eq_optional T_eq this other σ = (Ret false, σ)).
Proof.
  repeat split; intros Ha Hb;
    by rewrite (operator_eq_optional_run T_eq _ _ _ _ _ Ha I Hb I).
Qed.

(** C10. Seen as an rvalue, a container holding [v] is emptied by [value()],
    by [value_or(f)] and by [transform(fn)]: each goes through
    [release_value()], which destroys the stored instance and clears the
    flag, so that afterwards the container reports no value. *)
Theorem rvalue_access_releases_the_value {R} σ self v (f : T) (fn : callable T R) :
  holds σ self v →
  let emptied es :=
    update σ self (mkOptional (Init false) Raw) ([EDestroy self v; EFlag self false] ++ es) in
  value_rvalue self σ = (Ret v, emptied []) ∧
  value_or Rvalue self f σ = (Ret v, emptied []) ∧
  transform Rvalue self fn σ
  = (Ret (mkOptional (Init true) (Live (call_result fn v))), emptied [ECall v]) ∧
  (∀ es, vacant (emptied es) self ∧ has_value self (emptied es) = (Ret false, emptied es)).
Proof.
  intros H emptied. repeat split.
  - by apply release_value_holds.
  - by rewrite (value_or_holds Rvalue _ _ _ _ H).
  - by rewrite (transform_holds Rvalue _ _ _ _ H).
  - apply update_lookup.
  - eapply load_has_value__run, update_lookup.
Qed.

(** C7. Both assignments start with [clear()]: a value held by the
    destination is destroyed once and the flag is cleared.  With a distinct,
    present source the destination is then rebuilt from the source's value
    (which move-assignment releases from the source); with a distinct, empty
    source nothing more happens.  With the source being the destination, the
    source is found empty after [clear()], so the run ends there: it
    returns normally, destroyed the value once if there was one, and leaves
    the container empty. *)
Theorem assignment_clears_then_reconstructs σ this other d :
  heap σ !! this = Some d → well_formed d →
  let cleared :=
    update σ this (mkOptional (Init false) Raw) (destructions this d ++ [EFlag this false]) in
  (∀ v, this ≠ other → holds σ other v →
     operator_assign_copy this other σ
     = (Ret this, update σ this (mkOptional (Init true) (Live v))
                    (destructions this d
                       ++ [EFlag this false; EFlag this true; EConstruct this v])) ∧
     let σm := final (operator_assign_move this other σ) in
     result (operator_assign_move this other σ) = Ret this ∧
     holds σm this v ∧ vacant σm other ∧
     since σ σm
     = destructions this d
         ++ [EFlag this false; EFlag this true;
             EDestroy other v; EFlag other false; EConstruct this v]) ∧
  (this ≠ other → vacant σ other →
     operator_assign_copy this other σ = (Ret this, cleared) ∧
     operator_assign_move this other σ = (Ret this, cleared)) ∧
  (operator_assign_copy this this σ = (Ret this, cleared) ∧
   operator_assign_move this this σ = (Ret this, cleared)) ∧
  (vacant cleared this ∧
   destroy_count this (since σ cleared)
   = match value_ d with Live _ => 1 | Raw => 0 end).
Proof.
  intros H Hwf cleared. repeat split.
  - by apply operator_assign_copy_holds.
  - by erewrite operator_assign_move_holds.
  - erewrite operator_assign_move_holds by done. apply update_lookup.
  - erewrite operator_assign_move_holds by done. cbn [final snd].
    unfold vacant. rewrite update_lookup_ne by done. apply update_lookup.
  - erewrite operator_assign_move_holds by done. cbn [final snd].
    erewrite since_extend; [| cbn; rewrite <- !app_assoc; reflexivity].
    by rewrite <- !app_assoc.
  - apply operator_assign_copy_no_source; auto.
  - apply operator_assign_move_no_source; auto.
  - apply operator_assign_copy_no_source; auto.
  - apply operator_assign_move_no_source; auto.
  - apply update_lookup.
  - unfold cleared. rewrite since_update.
    destruct d as [f [|w]]; unfold destroy_count, destructions; cbn; [done |].
    by rewrite Nat.eqb_refl.
Qed.

Lemma construct_count_after_destructions this d (es : list (event T)) :
  construct_count this (destructions this d ++ es) = construct_count this es.
Proof. unfold construct_count, destructions. by destruct (value_ d). Qed.

(** On a normal return, each operation that sets the flag has constructed
    exactly one [T] into the buffer of its container.  The constructors do
    so before the flag is written, [emplace] and the assignments after. *)
Lemma flag_setters_construct_once {Args} (T_ctor : Args → exn + T)
    σ this other d args v w :
  heap σ !! this = Some d → well_formed d → T_ctor args = inr v →
  this ≠ other → holds σ other w →
  construct_count this (since σ (final (Optional_forward T_ctor this args σ))) = 1 ∧
  construct_count this (since σ (final (Optional_copy this other σ))) = 1 ∧
  construct_count this (since σ (final (Optional_move this other σ))) = 1 ∧
  construct_count this (since σ (final (emplace T_ctor this args σ))) = 1 ∧
  construct_count this (since σ (final (operator_assign_copy this other σ))) = 1 ∧
  construct_count this (since σ (final (operator_assign_move this other σ))) = 1.
Proof.
  intros H Hwf Hv Hne Ho.
  erewrite Optional_forward_run, Optional_copy_holds, Optional_move_holds,
    emplace_run, operator_assign_copy_holds, operator_assign_move_holds by done.
  cbn [final snd]. rewrite !since_update.
  assert (Hnat : Nat.eqb other this = false) by (apply Nat.eqb_neq; congruence).
  repeat split.
  - unfold construct_count. cbn. by rewrite Nat.eqb_refl.
  - unfold construct_count. cbn. by rewrite Nat.eqb_refl.
  - erewrite since_extend by (cbn; rewrite <- app_assoc; reflexivity).
    unfold construct_count. cbn. by rewrite Nat.eqb_refl.
  - rewrite construct_count_after_destructions.
    unfold construct_count. cbn. by rewrite Nat.eqb_refl.
  - rewrite construct_count_after_destructions.
    unfold construct_count. cbn. by rewrite Nat.eqb_refl.
  - erewrite since_extend by (cbn; rewrite <- !app_assoc; reflexivity).
    rewrite <- !app_assoc, construct_count_after_destructions.
    unfold construct_count. cbn. by rewrite Nat.eqb_refl.
Qed.

End Contracts.

Lemma checked_access_on_empty_throws_witness :
  heap store_empty !! 0 = Some (mkOptional (Init false) Raw) ∧
  value_lvalue 0 store_empty = (Throw BadAccess, store_empty) ∧
  value_const_lvalue 0 store_empty = (Throw BadAccess, store_empty) ∧
  value_rvalue 0 store_empty = (Throw BadAccess, store_empty) ∧
  release_value 0 store_empty = (Throw BadAccess, store_empty) ∧
  has_value 0 store_empty = (Ret false, store_empty).
Proof.
  split; [reflexivity |].
  apply (checked_access_on_empty_throws store_empty 0 Raw). reflexivity.
Defined.

Lemma release_value_returns_and_empties_witness :
  holds store_42 0 42%Z ∧
  let σ' := final (release_value 0 store_42) in
  result (release_value 0 store_42) = Ret 42%Z ∧
  since store_42 σ' = [EDestroy 0 42%Z; EFlag 0 false] ∧
  destroy_count 0 (since store_42 σ') = 1 ∧
  vacant σ' 0 ∧
  release_value 0 σ' = (Throw BadAccess, σ').
Proof.
  split; [reflexivity |].
  apply (release_value_returns_and_empties store_42 0 42%Z). reflexivity.
Defined.

Lemma transform_maps_present_and_keeps_empty_witness :
  holds store_42 0 42%Z ∧ vacant store_empty 0 ∧
  (result (transform Lvalue 0 double store_42) = Ret (some_int 84) ∧
   List.filter is_call (since store_42 (final (transform Lvalue 0 double store_42)))
   = [ECall 42%Z]) ∧
  (transform Lvalue 0 double store_empty = (Ret empty_int, store_empty) ∧
   call_count (since store_empty (final (transform Lvalue 0 double store_empty))) = 0).
Proof.
  split; [reflexivity |]. split; [reflexivity |]. split.
  - apply (proj1 (transform_maps_present_and_keeps_empty Lvalue store_42 0 double) 42%Z).
    reflexivity.
  - apply (proj2 (transform_maps_present_and_keeps_empty Lvalue store_empty 0 double)).
    reflexivity.
Defined.

(** C6 as stated fails: on an rvalue that holds 42,
    [and_then] hands the released value to [fn], and the container that
    reported a value before the call reports none after it. *)
Lemma and_then_on_rvalue_loses_presence :
  let σ' := final (and_then Rvalue 0 double store_42) in
  result (has_value 0 store_42) = Ret true ∧
  result (and_then Rvalue 0 double store_42) = Ret 0 ∧
  result (has_value 0 σ') = Ret false ∧
  result (has_value 0 σ') ≠ result (has_value 0 store_42).
Proof. repeat split. discriminate. Qed.

Lemma and_then_calls_exactly_when_present_witness :
  holds store_42 0 42%Z ∧ vacant store_empty 0 ∧
  (let σ' := final (and_then Lvalue 0 bump store_42) in
   result (and_then Lvalue 0 bump store_42) = Ret 0 ∧
   List.filter is_call (since store_42 σ') = [ECall 42%Z] ∧
   (Lvalue ≠ Rvalue → has_value 0 σ' = (Ret true, σ')) ∧
   (Lvalue = Rvalue → has_value 0 σ' = (Ret false, σ') ∧ vacant σ' 0)) ∧
  and_then Rvalue 0 bump store_empty = (Ret 0, store_empty).
Proof.
  split; [reflexivity |]. split; [reflexivity |]. split.
  - apply (proj1 (and_then_calls_exactly_when_present Lvalue store_42 0 bump) 42%Z).
    reflexivity.
  - apply (proj2 (and_then_calls_exactly_when_present Rvalue store_empty 0 bump)).
    reflexivity.
Defined.

Lemma value_or_returns_value_or_fallback_witness :
  holds store_42 0 42%Z ∧ vacant store_empty 0 ∧
  result (value_or ConstLvalue 0 7%Z store_42) = Ret 42%Z ∧
  value_or Rvalue 0 7%Z store_empty = (Ret 7%Z, store_empty).
Proof.
  split; [reflexivity |]. split; [reflexivity |]. split.
  - apply (proj1 (value_or_returns_value_or_fallback ConstLvalue store_42 0 7%Z) 42%Z).
    reflexivity.
  - apply (proj2 (value_or_returns_value_or_fallback Rvalue store_empty 0 7%Z)).
    reflexivity.
Defined.

Lemma equality_compares_presence_then_values_witness :
  (heap store_42_7 !! 0 = Some (some_int 42) ∧ well_formed (some_int 42) ∧
   heap store_42_7 !! 1 = Some (some_int 7) ∧ well_formed (some_int 7)) ∧
  (∃ r, operator_eq_value int_eq 0 42%Z store_42_7 = (Ret r, store_42_7) ∧
        (r = true ↔ ∃ v, holds store_42_7 0 v ∧ int_eq v 42%Z = true)) ∧
  (∃ r, operator_eq_optional int_eq 0 1 store_42_7 = (Ret r, store_42_7) ∧
        (r = true ↔
           (vacant store_42_7 0 ∧ vacant store_42_7 1) ∨
           (∃ v w, holds store_42_7 0 v ∧ holds store_42_7 1 w ∧ int_eq v w = true))).
Proof.
  split; [repeat split |].
  apply (equality_compares_presence_then_values int_eq int_eq store_42_7 0 1
           (some_int 42) (some_int 7) 42%Z); first [reflexivity | exact I].
Defined.

Lemma rvalue_access_releases_the_value_witness :
  holds store_42 0 42%Z ∧
  let emptied es :=
    update store_42 0 empty_int ([EDestroy 0 42%Z; EFlag 0 false] ++ es) in
  value_rvalue 0 store_42 = (Ret 42%Z, emptied []) ∧
  value_or Rvalue 0 7%Z store_42 = (Ret 42%Z, emptied []) ∧
  transform Rvalue 0 double store_42 = (Ret (some_int 84), emptied [ECall 42%Z]) ∧
  (∀ es, vacant (emptied es) 0 ∧ has_value 0 (emptied es) = (Ret false, emptied es)).
Proof.
  split; [reflexivity |].
  apply (rvalue_access_releases_the_value store_42 0 42%Z 7%Z double). reflexivity.
Defined.

Lemma assignment_clears_then_reconstructs_witness :
  (heap store_42_7 !! 0 = Some (some_int 42) ∧ well_formed (some_int 42)) ∧
  (operator_assign_copy 0 0 store_42_7
   = (Ret 0, update store_42_7 0 empty_int [EDestroy 0 42%Z; EFlag 0 false]) ∧
   operator_assign_move 0 0 store_42_7
   = (Ret 0, update store_42_7 0 empty_int [EDestroy 0 42%Z; EFlag 0 false])) ∧
  (operator_assign_copy 0 1 store_42_7
   = (Ret 0, update store_42_7 0 (some_int 7)
               [EDestroy 0 42%Z; EFlag 0 false; EFlag 0 true; EConstruct 0 7%Z]) ∧
   holds (final (operator_assign_move 0 1 store_42_7)) 0 7%Z ∧
   vacant (final (operator_assign_move 0 1 store_42_7)) 1) ∧
  operator_assign_move 0 1 store_42_empty
  = (Ret 0, update store_42_empty 0 empty_int [EDestroy 0 42%Z; EFlag 0 false]).
Proof.
  pose proof (assignment_clears_then_reconstructs store_42_7 0 0 (some_int 42) eq_refl I)
    as (_ & _ & Hself & _).
  pose proof (assignment_clears_then_reconstructs store_42_7 0 1 (some_int 42) eq_refl I)
    as (Hpresent & _).
  pose proof (assignment_clears_then_reconstructs store_42_empty 0 1 (some_int 42) eq_refl I)
    as (_ & Hempty & _).
  destruct (Hpresent 7%Z) as (Hcopy & _ & Hthis & Hother & _);
    [discriminate | reflexivity |].
  destruct Hempty as (_ & Hmove); [discriminate | reflexivity |].
  repeat split; first [exact Hcopy | exact Hthis | exact Hother | exact Hmove | apply Hself].
Defined.

(** C2, at an input where the order of the two writes shows.  [emplace] on
    an empty container, with arguments on which the constructor of [T]
    throws: the flag was already set when the exception left, no [T] was
    constructed, and the container now reports a value whose access is
    undefined.  The forwarding constructor, which constructs first, never
    gets to set the flag on the same arguments; and where the constructor of
    [T] succeeds, [emplace] still writes the flag before it constructs. *)
Theorem emplace_sets_flag_before_constructing :
  let r := emplace checked_ctor 0 (-1)%Z store_empty in
  result r = Throw (foreign_exception 1) ∧
  heap (final r) !! 0 = Some (mkOptional (Init true) Raw) ∧
  since store_empty (final r) = [EFlag 0 false; EFlag 0 true] ∧
  construct_count 0 (since store_empty (final r)) = 0 ∧
  has_value 0 (final r) = (Ret true, final r) ∧
  value_lvalue 0 (final r) = (Undefined, final r) ∧
  result (clear 0 (final r)) = Undefined ∧
  heap (final (Optional_forward checked_ctor 0 (-1)%Z store_empty)) !! 0
  = Some (mkOptional Indeterminate Raw) ∧
  since store_empty (final (emplace checked_ctor 0 5%Z store_empty))
  = [EFlag 0 false; EFlag 0 true; EConstruct 0 5%Z] ∧
  since store_empty (final (Optional_forward checked_ctor 0 5%Z store_empty))
  = [EConstruct 0 5%Z; EFlag 0 true].
Proof. repeat split. Qed.

(** C3, at the input where the code departs from it.  Move-constructing
    from an empty container returns before [has_value_] of the new object is
    written: the flag is left indeterminate, and asking the new container
    whether it has a value is undefined, where the default constructor gives
    a container that answers no.  From a present container the move is
    destructive as C3 has it: the new container holds the value and the
    source is empty. *)
Theorem Optional_move_from_empty_leaves_flag_unset :
  let σ' := final (Optional_move 1 0 store_empty) in
  result (Optional_move 1 0 store_empty) = Ret tt ∧
  heap σ' !! 1 = Some (mkOptional Indeterminate Raw) ∧
  has_value 1 σ' = (Undefined, σ') ∧
  result (has_value 1 (final (Optional_default 1 store_empty))) = Ret false ∧
  holds (final (Optional_move 1 0 store_42)) 1 42%Z ∧
  vacant (final (Optional_move 1 0 store_42)) 0.
Proof. repeat split. Qed.

(** * Beyond the access contracts: what the methods leave alone *)

Section Footprints.

Context {T : Type}.
Implicit Types (σ : machine T) (o : Optional T) (l this other self : loc) (v : T).

Lemma read_only_ret {A} (a : A) : read_only (T:=T) (ret a).
Proof. done. Qed.

Lemma read_only_throw {A} e : read_only (T:=T) (A:=A) (throw e).
Proof. done. Qed.

Lemma read_only_undefined {A} : read_only (T:=T) (A:=A) undefined.
Proof. done. Qed.

Lemma read_only_bind {A B} (c : M T A) (k : A → M T B) :
  read_only c → (∀ a, read_only (k a)) → read_only (bind c k).
Proof.
  intros Hc Hk σ. specialize (Hc σ). unfold bind, final in *.
  destruct (c σ) as [[a| |] σ1]; cbn in Hc; subst σ1; [apply Hk | done | done].
Qed.

Lemma read_only_object l : read_only (T:=T) (object l).
Proof. intros σ. unfold object. by destruct (heap σ !! l). Qed.

Lemma read_only_load_has_value_ this : read_only (T:=T) (load_has_value_ this).
Proof.
  apply read_only_bind; [apply read_only_object |].
  intros o. destruct (has_value_ o); [apply read_only_undefined | apply read_only_ret].
Qed.

Lemma read_only_launder this : read_only (T:=T) (launder this).
Proof.
  apply read_only_bind; [apply read_only_object |].
  intros o. destruct (value_ o); [apply read_only_undefined | apply read_only_ret].
Qed.

Lemma read_only__throw_if_inactive this : read_only (T:=T) (_throw_if_inactive this).
Proof.
  apply read_only_bind; [apply read_only_load_has_value_ |].
  intros []; [apply read_only_ret | apply read_only_throw].
Qed.

Lemma read_only_value_lvalue this : read_only (T:=T) (value_lvalue this).
Proof.
  apply read_only_bind; [apply read_only__throw_if_inactive |].
  intros _. apply read_only_launder.
Qed.

Lemma read_only_forward_value cat self :
  cat ≠ Rvalue → read_only (T:=T) (forward_value cat self).
Proof. destruct cat; [intros _ | intros _ | done]; apply read_only_value_lvalue. Qed.

(** X7. The observers do not write.  [has_value()], [operator bool],
    [_throw_if_inactive()], [value()] on an lvalue (const or not), both
    [operator==], and [value_or] and [operator*] on an lvalue leave the
    store and the trace exactly as they were, whether they return, throw or
    meet a container that is not well formed. *)
Theorem observers_are_read_only {O} (T_eq : T → O → bool) (T_eq' : T → T → bool)
    cat this other (x : O) (f : T) :
  read_only (has_value (T:=T) this) ∧
  read_only (operator_bool (T:=T) this) ∧
  read_only (_throw_if_inactive (T:=T) this) ∧
  read_only (value_lvalue (T:=T) this) ∧
  read_only (value_const_lvalue (T:=T) this) ∧
  read_only (operator_eq_value T_eq this x) ∧
  read_only (operator_eq_optional T_eq' this other) ∧
  (cat ≠ Rvalue → read_only (value_or cat this f)) ∧
  (cat ≠ Rvalue → read_only (operator_deref (T:=T) cat this)).
Proof.
  repeat split.
  - apply read_only_load_has_value_.
  - apply read_only_load_has_value_.
  - apply read_only__throw_if_inactive.
  - apply read_only_value_lvalue.
  - apply read_only_value_lvalue.
  - apply read_only_bind; [apply read_only_load_has_value_ |].
    intros []; [| apply read_only_ret].
    apply read_only_bind; [apply read_only_value_lvalue |].
    intros v. apply read_only_ret.
  - apply read_only_bind; [apply read_only_load_has_value_ |]. intros b.
    apply read_only_bind; [apply read_only_load_has_value_ |]. intros b'.
    destruct (eqb b b'); [| apply read_only_ret].
    apply read_only_bind; [apply read_only_load_has_value_ |]. intros b0.
    destruct (negb b0); [apply read_only_ret |].
    apply read_only_bind; [apply read_only_value_lvalue |]. intros v.
    apply read_only_bind; [apply read_only_value_lvalue |]. intros w.
    apply read_only_ret.
  - intros Hc. apply read_only_bind; [apply read_only_load_has_value_ |].
    intros []; [by apply read_only_forward_value | apply read_only_ret].
  - intros Hc. apply read_only_bind; [apply read_only__throw_if_inactive |].
    intros _. by apply read_only_forward_value.
Qed.

End Footprints.

Lemma observers_are_read_only_witness :
  Lvalue ≠ Rvalue ∧
  final (value_or Lvalue 0 7%Z store_42) = store_42 ∧
  final (operator_deref ConstLvalue 0 store_empty) = store_empty.
Proof.
  split; [discriminate |]. split.
  - apply (proj1 (proj2 (proj2 (proj2 (proj2 (proj2 (proj2 (proj2
             (observers_are_read_only int_eq int_eq Lvalue 0 0 0%Z 7%Z))))))))).
    discriminate.
  - apply (proj2 (proj2 (proj2 (proj2 (proj2 (proj2 (proj2 (proj2
             (observers_are_read_only int_eq int_eq ConstLvalue 0 0 0%Z 7%Z))))))))).
    discriminate.
Defined.

Section Frames.

Context {T : Type}.
Implicit Types (σ : machine T) (o : Optional T) (l this other self : loc) (v : T).

Lemma touches_only_read_only {A} l1 l2 (c : M T A) :
  read_only c → touches_only l1 l2 c.
Proof. intros Hc σ l _ _. by rewrite Hc. Qed.

Lemma touches_only_bind {A B} l1 l2 (c : M T A) (k : A → M T B) :
  touches_only l1 l2 c → (∀ a, touches_only l1 l2 (k a)) →
  touches_only l1 l2 (bind c k).
Proof.
  intros Hc Hk σ l H1 H2. specialize (Hc σ l H1 H2). unfold bind, final in *.
  destruct (c σ) as [[a| |] σ1]; cbn in Hc; [| done | done].
  rewrite <- Hc. by apply Hk.
Qed.

Lemma touches_only_widen {A} l1 l2 (c : M T A) :
  touches_only l1 l1 c → touches_only l1 l2 c.
Proof. intros Hc σ l H1 _. by apply Hc. Qed.

Lemma touches_only_swap {A} l1 l2 (c : M T A) :
  touches_only l1 l2 c → touches_only l2 l1 c.
Proof. intros Hc σ l H1 H2. by apply Hc. Qed.

Lemma touches_only_put_object this o : touches_only this this (put_object this o).
Proof. intros σ l H _. unfold put_object, final. cbn. by rewrite lookup_insert_ne. Qed.

Lemma touches_only_emit l (e : event T) : touches_only l l (emit e).
Proof. by intros σ l' _ _. Qed.

Lemma touches_only_store_has_value_ this b :
  touches_only this this (store_has_value_ (T:=T) this b).
Proof.
  apply touches_only_bind; [apply touches_only_read_only, read_only_object |].
  intros o. apply touches_only_bind; [apply touches_only_put_object |].
  intros _. apply touches_only_emit.
Qed.

Lemma touches_only_construct_at this v : touches_only this this (construct_at this v).
Proof.
  apply touches_only_bind; [apply touches_only_read_only, read_only_object |].
  intros o. apply touches_only_bind; [apply touches_only_put_object |].
  intros _. apply touches_only_emit.
Qed.

Lemma touches_only_destroy_at this : touches_only this this (destroy_at (T:=T) this).
Proof.
  apply touches_only_bind; [apply touches_only_read_only, read_only_object |].
  intros o. destruct (value_ o).
  - apply touches_only_read_only, read_only_undefined.
  - apply touches_only_bind; [apply touches_only_put_object |].
    intros _. apply touches_only_emit.
Qed.

Lemma touches_only_assign_through this v : touches_only this this (assign_through this v).
Proof.
  apply touches_only_bind; [apply touches_only_read_only, read_only_object |].
  intros o. destruct (value_ o).
  - apply touches_only_read_only, read_only_undefined.
  - apply touches_only_put_object.
Qed.

Lemma touches_only_release_value this : touches_only this this (release_value (T:=T) this).
Proof.
  apply touches_only_bind; [apply touches_only_read_only, read_only__throw_if_inactive |].
  intros _. apply touches_only_bind; [apply touches_only_read_only, read_only_value_lvalue |].
  intros released.
  apply touches_only_bind; [apply touches_only_read_only, read_only_value_lvalue |].
  intros _. apply touches_only_bind; [apply touches_only_destroy_at |].
  intros _. apply touches_only_bind; [apply touches_only_store_has_value_ |].
  intros _. apply touches_only_read_only, read_only_ret.
Qed.

Lemma touches_only_clear this : touches_only this this (clear (T:=T) this).
Proof.
  apply touches_only_bind; [apply touches_only_read_only, read_only_load_has_value_ |].
  intros b. apply touches_only_bind; [| intros _; apply touches_only_store_has_value_].
  destruct b; [| apply touches_only_read_only, read_only_ret].
  apply touches_only_bind; [apply touches_only_read_only, read_only_value_lvalue |].
  intros _. apply touches_only_destroy_at.
Qed.

Lemma touches_only_forward_value cat self :
  touches_only self self (forward_value (T:=T) cat self).
Proof.
  destruct cat; cbn [forward_value].
  - apply touches_only_read_only, read_only_value_lvalue.
  - apply touches_only_read_only, read_only_value_lvalue.
  - apply touches_only_release_value.
Qed.

Lemma touches_only_invoke {R} cat self (fn : callable T R) v :
  touches_only self self (invoke cat self fn v).
Proof.
  apply touches_only_bind; [apply touches_only_emit |].
  intros _. apply touches_only_bind; [| intros _; apply touches_only_read_only, read_only_ret].
  destruct cat; first [apply touches_only_assign_through
                      | apply touches_only_read_only, read_only_ret].
Qed.

Lemma touches_only_run_ctor l (r : exn + T) : touches_only l l (run_ctor r).
Proof.
  destruct r; apply touches_only_read_only; [apply read_only_throw | apply read_only_ret].
Qed.

(** X8. A method writes to its own container only.  Whatever the store and
    however the call ends, [clear], [release_value], [emplace], [value_or],
    [operator*], [and_then], [transform] and the destructor leave every
    other container as it was; so do the copy constructor and
    copy-assignment, which therefore never write to their source; the move
    constructor and move-assignment write to [*this] and to [other] only. *)
Theorem methods_touch_only_their_container {R Args} (T_ctor : Args → exn + T)
    cat this other (fn : callable T R) (args : Args) (f : T) :
  touches_only this this (clear (T:=T) this) ∧
  touches_only this this (release_value (T:=T) this) ∧
  touches_only this this (emplace T_ctor this args) ∧
  touches_only this this (value_or cat this f) ∧
  touches_only this this (operator_deref (T:=T) cat this) ∧
  touches_only this this (and_then cat this fn) ∧
  touches_only this this (transform cat this fn) ∧
  touches_only this this (Optional_dtor (T:=T) this) ∧
  touches_only this this (Optional_forward T_ctor this args) ∧
  touches_only this this (Optional_copy (T:=T) this other) ∧
  touches_only this this (operator_assign_copy (T:=T) this other) ∧
  touches_only this other (Optional_move (T:=T) this other) ∧
  touches_only this other (operator_assign_move (T:=T) this other).
Proof.
  repeat split.
  - apply touches_only_clear.
  - apply touches_only_release_value.
  - apply touches_only_bind; [apply touches_only_clear |]. intros _.
    apply touches_only_bind; [apply touches_only_store_has_value_ |]. intros _.
    apply touches_only_bind; [apply touches_only_run_ctor |]. intros v.
    apply touches_only_construct_at.
  - apply touches_only_bind; [apply touches_only_read_only, read_only_load_has_value_ |].
    intros []; [apply touches_only_forward_value | apply touches_only_read_only, read_only_ret].
  - apply touches_only_bind; [apply touches_only_read_only, read_only__throw_if_inactive |].
    intros _. apply touches_only_forward_value.
  - apply touches_only_bind; [apply touches_only_read_only, read_only_load_has_value_ |].
    intros b. apply touches_only_bind; [| intros _; apply touches_only_read_only, read_only_ret].
    destruct b; [| apply touches_only_read_only, read_only_ret].
    apply touches_only_bind; [apply touches_only_forward_value |]. intros v.
    apply touches_only_bind; [apply touches_only_invoke |]. intros _.
    apply touches_only_read_only, read_only_ret.
  - apply touches_only_bind; [apply touches_only_read_only, read_only_load_has_value_ |].
    intros []; [| by apply touches_only_read_only].
    apply touches_only_bind; [apply touches_only_forward_value |]. intros v.
    apply touches_only_bind; [apply touches_only_invoke |]. intros r.
    by apply touches_only_read_only.
  - apply touches_only_bind; [apply touches_only_clear |]. intros _.
    intros σ l H _. unfold final. cbn. by rewrite lookup_delete_ne.
  - apply touches_only_bind; [apply touches_only_put_object |]. intros _.
    apply touches_only_bind; [apply touches_only_run_ctor |]. intros v.
    apply touches_only_bind; [apply touches_only_construct_at |]. intros _.
    apply touches_only_store_has_value_.
  - apply touches_only_bind; [apply touches_only_put_object |]. intros _.
    apply touches_only_bind; [apply touches_only_read_only, read_only_load_has_value_ |].
    intros b. destruct (negb b); [apply touches_only_read_only, read_only_ret |].
    apply touches_only_bind; [apply touches_only_read_only, read_only_value_lvalue |].
    intros v. apply touches_only_bind; [apply touches_only_construct_at |]. intros _.
    apply touches_only_store_has_value_.
  - apply touches_only_bind; [apply touches_only_clear |]. intros _.
    apply touches_only_bind; [apply touches_only_read_only, read_only_load_has_value_ |].
    intros b. apply touches_only_bind; [| intros _; apply touches_only_read_only, read_only_ret].
    destruct b; [| apply touches_only_read_only, read_only_ret].
    apply touches_only_bind; [apply touches_only_store_has_value_ |]. intros _.
    apply touches_only_bind; [apply touches_only_read_only, read_only_value_lvalue |].
    intros v. apply touches_only_construct_at.
  - apply touches_only_bind; [apply touches_only_widen, touches_only_put_object |]. intros _.
    apply touches_only_bind; [apply touches_only_read_only, read_only_load_has_value_ |].
    intros b. destruct (negb b); [apply touches_only_read_only, read_only_ret |].
    apply touches_only_bind;
      [apply touches_only_swap, touches_only_widen, touches_only_release_value |].
    intros v. apply touches_only_bind; [apply touches_only_widen, touches_only_construct_at |].
    intros _. apply touches_only_widen, touches_only_store_has_value_.
  - apply touches_only_bind; [apply touches_only_widen, touches_only_clear |]. intros _.
    apply touches_only_bind; [apply touches_only_read_only, read_only_load_has_value_ |].
    intros b. apply touches_only_bind; [| intros _; apply touches_only_read_only, read_only_ret].
    destruct b; [| apply touches_only_read_only, read_only_ret].
    apply touches_only_bind; [apply touches_only_widen, touches_only_store_has_value_ |].
    intros _. apply touches_only_bind;
      [apply touches_only_swap, touches_only_widen, touches_only_release_value |].
    intros v. apply touches_only_widen, touches_only_construct_at.
Qed.

End Frames.

Lemma methods_touch_only_their_container_witness :
  1 ≠ 0 ∧
  heap (final (clear 0 store_42_7)) !! 1 = heap store_42_7 !! 1 ∧
  heap (final (operator_assign_copy 0 1 store_42_7)) !! 1 = heap store_42_7 !! 1.
Proof.
  split; [discriminate |]. split.
  - apply (proj1 (methods_touch_only_their_container checked_ctor Lvalue 0 1 double 5%Z 7%Z));
      discriminate.
  - apply (proj1 (proj2 (proj2 (proj2 (proj2 (proj2 (proj2 (proj2 (proj2 (proj2 (proj2
             (methods_touch_only_their_container
                checked_ctor Lvalue 0 1 double 5%Z 7%Z))))))))))));
      discriminate.
Defined.

(** * Lifetimes: construction, replacement, destruction *)

Section Lifetimes.

Context {T : Type}.
Implicit Types (σ : machine T) (o d : Optional T) (l this other self : loc) (v w : T).

Lemma live_at_lookup σ l o :
  heap σ !! l = Some o → live_at σ l = match value_ o with Live _ => 1 | Raw => 0 end.
Proof. intros H. unfold live_at. by rewrite H. Qed.

Lemma destroy_count_destructions this d :
  destroy_count this (destructions this d ++ [EFlag this false] : list (event T))
  = match value_ d with Live _ => 1 | Raw => 0 end.
Proof.
  unfold destroy_count, destructions. destruct (value_ d); cbn; [done |].
  by rewrite Nat.eqb_refl.
Qed.

Lemma heap_update_same σ l o es : heap σ !! l = Some o → heap (update σ l o es) = heap σ.
Proof. intros H. unfold update. cbn. by apply insert_id. Qed.

Lemma Optional_dtor_run σ this d :
  heap σ !! this = Some d → well_formed d →
  Optional_dtor this σ
  = (Ret tt, mkMachine (delete this (heap σ))
               (trace σ ++ destructions this d ++ [EFlag this false])).
Proof.
  intros H Hwf. unfold Optional_dtor.
  erewrite bind_Ret by (by apply clear_run).
  unfold update. cbn. by rewrite delete_insert_eq.
Qed.

Lemma operator_deref_unfold cat self σ :
  operator_deref cat self σ = forward_value cat self σ.
Proof.
  destruct cat;
    unfold operator_deref, forward_value, value_rvalue, release_value,
      value_const_lvalue, value_lvalue, _throw_if_inactive, load_has_value_, bind, object;
    destruct (heap σ !! self) as [[[|[]] s]|] eqn:E; cbn; rewrite ?E; cbn; rewrite ?E; done.
Qed.

(** X1. [clear()] on a well-formed container returns normally, destroys the
    held value once if there is one and nothing otherwise, and leaves the
    container empty.  It is idempotent: a second [clear()] destroys nothing
    and leaves every container as the first one left it. *)
Theorem clear_empties_and_is_idempotent σ this d :
  heap σ !! this = Some d → well_formed d →
  let σ1 := final (clear this σ) in
  let σ2 := final (clear this σ1) in
  result (clear this σ) = Ret tt ∧
  vacant σ1 this ∧
  has_value this σ1 = (Ret false, σ1) ∧
  destroy_count this (since σ σ1) = live_at σ this ∧
  result (clear this σ1) = Ret tt ∧
  destroy_count this (since σ1 σ2) = 0 ∧
  heap σ2 = heap σ1.
Proof.
  intros H Hwf.
  rewrite (clear_run _ _ _ H Hwf). cbn [final result fst snd].
  set (σ1 := update _ _ _ _).
  assert (H1 : heap σ1 !! this = Some (mkOptional (Init false) Raw))
    by apply update_lookup.
  rewrite (clear_run _ _ _ H1 I). cbn [final result fst snd].
  repeat split; try done.
  - by eapply load_has_value__run.
  - unfold σ1. rewrite since_update, destroy_count_destructions.
    by rewrite (live_at_lookup _ _ _ H).
  - by rewrite since_update.
  - by apply heap_update_same.
Qed.

(** X2. [emplace(args...)] on a well-formed container, the constructor of
    [T] succeeding with [v]: a value held before is destroyed once, one [T]
    is constructed, and the container holds [v], which [value()] then
    returns and [release_value()] takes out again. *)
Theorem emplace_replaces_the_value {Args} (T_ctor : Args → exn + T) σ this d args v :
  heap σ !! this = Some d → well_formed d → T_ctor args = inr v →
  let σ1 := final (emplace T_ctor this args σ) in
  result (emplace T_ctor this args σ) = Ret tt ∧
  holds σ1 this v ∧
  destroy_count this (since σ σ1) = live_at σ this ∧
  construct_count this (since σ σ1) = 1 ∧
  has_value this σ1 = (Ret true, σ1) ∧
  value_lvalue this σ1 = (Ret v, σ1) ∧
  result (release_value this σ1) = Ret v.
Proof.
  intros H Hwf Hv.
  rewrite (emplace_run _ _ _ _ _ _ H Hwf Hv). cbn [final result fst snd].
  set (σ1 := update _ _ _ _).
  assert (H1 : holds σ1 this v) by apply update_lookup.
  repeat split; try done.
  - unfold σ1. rewrite since_update, (live_at_lookup _ _ _ H).
    unfold destroy_count, destructions. destruct (value_ d); cbn; [done |].
    by rewrite Nat.eqb_refl.
  - unfold σ1. rewrite since_update.
    unfold construct_count, destructions. destruct (value_ d); cbn;
      by rewrite Nat.eqb_refl.
  - by eapply load_has_value__run.
  - by apply value_lvalue_holds.
  - by rewrite (release_value_holds _ _ _ H1).
Qed.

(** X3. What the constructors establish.  After [Optional()] and after
    [Optional(Nullopt)] the container is empty: [has_value()] and
    [operator bool] answer false and [value()] throws [BadAccess].  After
    the forwarding constructor, the constructor of [T] succeeding with [v],
    the container holds [v]: both answer true, [value()] returns [v], and
    the [T] was constructed before the flag was written. *)
Theorem constructors_establish_presence {Args} (T_ctor : Args → exn + T) σ this args v :
  T_ctor args = inr v →
  (let σ0 := final (Optional_default this σ) in
   vacant σ0 this ∧ has_value this σ0 = (Ret false, σ0) ∧
   operator_bool this σ0 = (Ret false, σ0) ∧
   value_lvalue this σ0 = (Throw BadAccess, σ0)) ∧
  (let σ0 := final (Optional_nullopt this σ) in
   vacant σ0 this ∧ has_value this σ0 = (Ret false, σ0) ∧
   operator_bool this σ0 = (Ret false, σ0) ∧
   value_lvalue this σ0 = (Throw BadAccess, σ0)) ∧
  (let σ1 := final (Optional_forward T_ctor this args σ) in
   result (Optional_forward T_ctor this args σ) = Ret tt ∧
   holds σ1 this v ∧ has_value this σ1 = (Ret true, σ1) ∧
   operator_bool this σ1 = (Ret true, σ1) ∧
   value_lvalue this σ1 = (Ret v, σ1) ∧
   since σ σ1 = [EConstruct this v; EFlag this true]).
Proof.
  intros Hv.
  assert (Hd : ∀ σ0, σ0 = final (Optional_default this σ) →
            vacant σ0 this ∧ has_value this σ0 = (Ret false, σ0) ∧
            operator_bool this σ0 = (Ret false, σ0) ∧
            value_lvalue this σ0 = (Throw BadAccess, σ0)).
  { intros σ0 ->. unfold Optional_default. rewrite init_members_run. cbn [final snd].
    assert (H0 : vacant (update σ this (mkOptional (Init false) Raw) []) this)
      by apply update_lookup.
    repeat split; try done.
    - by eapply load_has_value__run.
    - by eapply load_has_value__run.
    - by eapply value_lvalue_inactive. }
  split; [by apply Hd |]. split; [by apply Hd |].
  rewrite (Optional_forward_run _ _ _ _ _ Hv). cbn [final result fst snd].
  assert (H1 : holds (update σ this (mkOptional (Init true) (Live v))
                        [EConstruct this v; EFlag this true]) this v)
    by apply update_lookup.
  repeat split; try done.
  - by eapply load_has_value__run.
  - by eapply load_has_value__run.
  - by apply value_lvalue_holds.
  - by rewrite since_update.
Qed.

(** X4. The copy constructor on a present source constructs one [T] from
    the source's value, and source and copy are independent afterwards:
    both hold the value, the source was not written, and an [emplace] on
    either one leaves the other holding the copied value. *)
Theorem copy_constructor_copies_independently {Args} (T_ctor : Args → exn + T)
    σ this other v args w :
  this ≠ other → holds σ other v → T_ctor args = inr w →
  let σ1 := final (Optional_copy this other σ) in
  let σ2 := final (emplace T_ctor this args σ1) in
  let σ3 := final (emplace T_ctor other args σ1) in
  result (Optional_copy this other σ) = Ret tt ∧
  since σ σ1 = [EConstruct this v; EFlag this true] ∧
  holds σ1 this v ∧ holds σ1 other v ∧
  holds σ2 this w ∧ holds σ2 other v ∧
  holds σ3 other w ∧ holds σ3 this v.
Proof.
  intros Hne Ho Hw.
  rewrite (Optional_copy_holds _ _ _ _ Hne Ho). cbn [final result fst snd].
  set (σ1 := update _ _ _ _).
  assert (H1 : holds σ1 this v) by apply update_lookup.
  assert (H2 : holds σ1 other v) by (unfold holds, σ1; by rewrite update_lookup_ne).
  rewrite (emplace_run _ _ _ _ _ _ H1 I Hw), (emplace_run _ _ _ _ _ _ H2 I Hw).
  cbn [final snd]. unfold holds.
  repeat split; try done.
  - unfold σ1. by rewrite since_update.
  - apply update_lookup.
  - by rewrite update_lookup_ne.
  - apply update_lookup.
  - rewrite update_lookup_ne by done. apply H1.
Qed.

(** X5. The copy constructor on an empty source returns at its first line,
    before [has_value_] of the new object has been written and without
    constructing anything: the flag of the new object is indeterminate, so
    that [has_value()] on it and its destructor are undefined. *)
Theorem copy_constructor_from_empty_leaves_flag_unset σ this other :
  this ≠ other → vacant σ other →
  let σ1 := final (Optional_copy this other σ) in
  result (Optional_copy this other σ) = Ret tt ∧
  since σ σ1 = [] ∧
  heap σ1 !! this = Some (mkOptional Indeterminate Raw) ∧
  has_value this σ1 = (Undefined, σ1) ∧
  result (Optional_dtor this σ1) = Undefined.
Proof.
  intros Hne Ho.
  rewrite (Optional_copy_vacant _ _ _ Hne Ho). cbn [final result fst snd].
  set (σ1 := update _ _ _ _).
  assert (H1 : heap σ1 !! this = Some (mkOptional Indeterminate Raw))
    by apply update_lookup.
  repeat split; try done.
  - unfold σ1. by rewrite since_update.
  - by eapply load_has_value__indeterminate.
  - unfold Optional_dtor, clear.
    erewrite bind_Undefined; [done |].
    erewrite bind_Undefined; [done |].
    by eapply load_has_value__indeterminate.
Qed.

(** X6. [operator*] is [value()] for the same value category, on every
    store: its own call of [_throw_if_inactive()] changes nothing.  So on an
    empty container it throws [BadAccess] and leaves the store alone, on an
    lvalue holding [v] it gives [v] and leaves the store alone, and on an
    rvalue holding [v] it releases the value. *)
Theorem operator_deref_is_checked_value cat self σ :
  operator_deref cat self σ = forward_value cat self σ ∧
  (vacant σ self → operator_deref cat self σ = (Throw BadAccess, σ)) ∧
  (∀ v, holds σ self v →
     result (operator_deref cat self σ) = Ret v ∧
     (cat ≠ Rvalue → final (operator_deref cat self σ) = σ) ∧
     (cat = Rvalue → vacant (final (operator_deref cat self σ)) self)).
Proof.
  rewrite operator_deref_unfold. split; [done |]. split.
  - intros H. destruct cat; cbn [forward_value].
    + by eapply value_lvalue_inactive.
    + by eapply value_const_lvalue_inactive.
    + by eapply release_value_inactive.
  - intros v H. rewrite (forward_value_holds _ _ _ _ H). cbn [final result fst snd].
    split; [done |]. destruct cat; split; try done.
    intros _. apply update_lookup.
Qed.

(** X10. The destructor of a well-formed container returns normally,
    destroys the held value once if there is one and nothing otherwise,
    constructs nothing, and ends the object: a later [has_value()] on it is
    undefined.  After [release_value()] the destructor destroys nothing
    more, so that release and destruction together destroy the stored
    instance once. *)
Theorem destructor_destroys_once σ this d :
  heap σ !! this = Some d → well_formed d →
  let σ1 := final (Optional_dtor this σ) in
  result (Optional_dtor this σ) = Ret tt ∧
  heap σ1 !! this = None ∧
  destroy_count this (since σ σ1) = live_at σ this ∧
  construct_count this (since σ σ1) = 0 ∧
  has_value this σ1 = (Undefined, σ1) ∧
  (∀ v, holds σ this v →
     let σ2 := final (Optional_dtor this (final (release_value this σ))) in
     since σ σ2 = [EDestroy this v; EFlag this false; EFlag this false]).
Proof.
  intros H Hwf.
  rewrite (Optional_dtor_run _ _ _ H Hwf). cbn [final result fst snd].
  repeat split.
  - cbn. apply lookup_delete_eq.
  - unfold since. cbn. rewrite drop_app_length, destroy_count_destructions.
    by rewrite (live_at_lookup _ _ _ H).
  - unfold since. cbn. rewrite drop_app_length.
    unfold construct_count, destructions. by destruct (value_ d).
  - unfold has_value, load_has_value_, bind, object. cbn.
    by rewrite lookup_delete_eq.
  - intros v Hv. rewrite (release_value_holds _ _ _ Hv). cbn [final snd].
    erewrite Optional_dtor_run; [| apply update_lookup | exact I].
    unfold since, update. cbn. by rewrite <- app_assoc, drop_app_length.
Qed.

(** X11. On a container that holds a value, [release_value()] is [value()]
    followed by [clear()]: the same result, the same store, the same trace. *)
Theorem release_value_is_value_then_clear σ this v :
  holds σ this v →
  release_value this σ
  = bind (value_lvalue this) (λ x, bind (clear this) (λ _, ret x)) σ.
Proof.
  intros H. rewrite (release_value_holds _ _ _ H).
  erewrite bind_Ret by (by apply value_lvalue_holds).
  by erewrite bind_Ret by (apply clear_run; [apply H | exact I]).
Qed.

End Lifetimes.

(** * Invariants over whole stores *)

Section Invariants.

Context {T : Type}.
Implicit Types (σ : machine T) (o d s : Optional T) (l this other self : loc) (v w : T).

Lemma wf_store_update σ l o es :
  wf_store σ → well_formed o → wf_store (update σ l o es).
Proof.
  intros Hσ Ho l' o'. unfold update. cbn. rewrite lookup_insert.
  case_decide; [by intros [= <-] | apply Hσ].
Qed.

Lemma wf_store_log σ es : wf_store σ → wf_store (log σ es).
Proof. done. Qed.

Lemma well_formed_cases o :
  well_formed o →
  o = mkOptional (Init false) Raw ∨ ∃ v, o = mkOptional (Init true) (Live v).
Proof. destruct o as [[|[]] [|v]]; try done; eauto. Qed.

Lemma wf_store_after_invoke {R} cat σ self (fn : callable T R) v :
  wf_store σ → wf_store (after_invoke cat σ self fn v).
Proof.
  intros Hσ. destruct cat; cbn [after_invoke];
    first [by apply wf_store_update | by apply wf_store_log].
Qed.

Lemma wf_store_forwarded cat σ self v :
  wf_store σ →
  wf_store (match cat with
            | Rvalue => update σ self (mkOptional (Init false) Raw)
                          [EDestroy self v; EFlag self false]
            | _ => σ
            end).
Proof. intros Hσ. destruct cat; try done. by apply wf_store_update. Qed.

(** The store in the middle of a move-assignment has the flag of [*this]
    set over an empty buffer; the construction that ends it repairs that. *)
Lemma wf_store_rebuilt σ this other o1 es1 es2 es3 v :
  wf_store σ →
  wf_store
    (update
       (update (update σ this o1 es1) other (mkOptional (Init false) Raw) es2)
       this (mkOptional (Init true) (Live v)) es3).
Proof.
  intros Hσ l' o'. unfold update. cbn. rewrite !lookup_insert.
  repeat case_decide; try congruence; try (by intros [= <-]). apply Hσ.
Qed.

(** X9. Invariant I1 is kept.  In a store where every container is well
    formed (flag true with a live [T], or flag false with none), [clear],
    [release_value], [value_or], [operator*], [and_then], [transform], both
    assignments, and [emplace] with a constructor of [T] that succeeds leave
    every container well formed, also when the call ends in [BadAccess] and
    when source and destination of an assignment are one object. *)
Theorem methods_keep_containers_well_formed {R Args} (T_ctor : Args → exn + T)
    cat σ this other d s (fn : callable T R) (args : Args) v (f : T) :
  wf_store σ →
  heap σ !! this = Some d → heap σ !! other = Some s →
  T_ctor args = inr v →
  wf_store (final (clear this σ)) ∧
  wf_store (final (release_value this σ)) ∧
  wf_store (final (emplace T_ctor this args σ)) ∧
  wf_store (final (value_or cat this f σ)) ∧
  wf_store (final (operator_deref cat this σ)) ∧
  wf_store (final (and_then cat this fn σ)) ∧
  wf_store (final (transform cat this fn σ)) ∧
  wf_store (final (operator_assign_copy this other σ)) ∧
  wf_store (final (operator_assign_move this other σ)).
Proof.
  intros Hσ Hd Hs Hv.
  pose proof (Hσ _ _ Hd) as Hwd. pose proof (Hσ _ _ Hs) as Hws.
  assert (Hcl : wf_store (final (clear this σ))).
  { rewrite (clear_run _ _ _ Hd Hwd). by apply wf_store_update. }
  split; [exact Hcl |].
  destruct (well_formed_cases _ Hwd) as [-> | [x ->]].
  - (* the container is empty *)
    rewrite (release_value_inactive _ _ _ Hd).
    rewrite (emplace_run _ _ _ _ _ _ Hd I Hv).
    rewrite (value_or_vacant _ _ _ _ Hd).
    rewrite operator_deref_unfold.
    rewrite (and_then_vacant _ _ _ _ Hd), (transform_vacant _ _ _ _ Hd).
    cbn [final snd].
    repeat split; try done.
    + by apply wf_store_update.
    + destruct cat; cbn [forward_value].
      * by rewrite (value_lvalue_inactive _ _ _ Hd).
      * by rewrite (value_const_lvalue_inactive _ _ _ Hd).
      * unfold value_rvalue. by rewrite (release_value_inactive _ _ _ Hd).
    + destruct (decide (this = other)) as [<- | Hne].
      * rewrite (operator_assign_copy_no_source _ _ _ _ Hd I) by auto.
        by apply wf_store_update.
      * destruct (well_formed_cases _ Hws) as [-> | [y ->]].
        -- rewrite (operator_assign_copy_no_source _ _ _ _ Hd I) by auto.
           by apply wf_store_update.
        -- rewrite (operator_assign_copy_holds _ _ _ _ _ Hd I Hne Hs).
           by apply wf_store_update.
    + destruct (decide (this = other)) as [<- | Hne].
      * rewrite (operator_assign_move_no_source _ _ _ _ Hd I) by auto.
        by apply wf_store_update.
      * destruct (well_formed_cases _ Hws) as [-> | [y ->]].
        -- rewrite (operator_assign_move_no_source _ _ _ _ Hd I) by auto.
           by apply wf_store_update.
        -- rewrite (operator_assign_move_holds _ _ _ _ _ Hd I Hne Hs). cbn [final snd].
           by apply wf_store_rebuilt.
  - (* the container holds x *)
    rewrite (release_value_holds _ _ _ Hd).
    rewrite (emplace_run _ _ _ _ _ _ Hd I Hv).
    rewrite (value_or_holds _ _ _ _ _ Hd).
    rewrite operator_deref_unfold, (forward_value_holds _ _ _ _ Hd).
    rewrite (and_then_holds _ _ _ _ _ Hd), (transform_holds _ _ _ _ _ Hd).
    cbn [final snd].
    repeat split.
    + by apply wf_store_update.
    + by apply wf_store_update.
    + by apply wf_store_forwarded.
    + by apply wf_store_forwarded.
    + by apply wf_store_after_invoke.
    + by apply wf_store_after_invoke.
    + destruct (decide (this = other)) as [<- | Hne].
      * rewrite (operator_assign_copy_no_source _ _ _ _ Hd I) by auto.
        by apply wf_store_update.
      * destruct (well_formed_cases _ Hws) as [-> | [y ->]].
        -- rewrite (operator_assign_copy_no_source _ _ _ _ Hd I) by auto.
           by apply wf_store_update.
        -- rewrite (operator_assign_copy_holds _ _ _ _ _ Hd I Hne Hs).
           by apply wf_store_update.
    + destruct (decide (this = other)) as [<- | Hne].
      * rewrite (operator_assign_move_no_source _ _ _ _ Hd I) by auto.
        by apply wf_store_update.
      * destruct (well_formed_cases _ Hws) as [-> | [y ->]].
        -- rewrite (operator_assign_move_no_source _ _ _ _ Hd I) by auto.
           by apply wf_store_update.
        -- rewrite (operator_assign_move_holds _ _ _ _ _ Hd I Hne Hs). cbn [final snd].
           by apply wf_store_rebuilt.
Qed.

End Invariants.

(** * Equality of containers *)

Section Equality.

Context {T : Type}.
Implicit Types (σ : machine T) (o d s : Optional T) (l this other self : loc) (v w : T).

(** X12. [operator==] between containers inherits the laws of [T]'s
    [operator==].  On well-formed containers it is reflexive, symmetric and
    transitive whenever [T]'s is; it always returns normally. *)
Theorem equality_inherits_equivalence (T_eq : T → T → bool) σ a b c oa ob oc :
  heap σ !! a = Some oa → well_formed oa →
  heap σ !! b = Some ob → well_formed ob →
  heap σ !! c = Some oc → well_formed oc →
  ((∀ x, T_eq x x = true) →
     operator_eq_optional T_eq a a σ = (Ret true, σ)) ∧
  ((∀ x y, T_eq x y = T_eq y x) →
     operator_eq_optional T_eq a b σ = operator_eq_optional T_eq b a σ) ∧
  ((∀ x y z, T_eq x y = true → T_eq y z = true → T_eq x z = true) →
     operator_eq_optional T_eq a b σ = (Ret true, σ) →
     operator_eq_optional T_eq b c σ = (Ret true, σ) →
     operator_eq_optional T_eq a c σ = (Ret true, σ)).
Proof.
  intros Ha Hwa Hb Hwb Hc Hwc.
  rewrite (operator_eq_optional_run T_eq _ _ _ _ _ Ha Hwa Ha Hwa).
  rewrite (operator_eq_optional_run T_eq _ _ _ _ _ Ha Hwa Hb Hwb).
  rewrite (operator_eq_optional_run T_eq _ _ _ _ _ Hb Hwb Ha Hwa).
  rewrite (operator_eq_optional_run T_eq _ _ _ _ _ Hb Hwb Hc Hwc).
  rewrite (operator_eq_optional_run T_eq _ _ _ _ _ Ha Hwa Hc Hwc).
  destruct (value_ oa) as [|x], (value_ ob) as [|y], (value_ oc) as [|z];
    repeat split; try done.
  all: try (intros Hrefl; by rewrite Hrefl).
  all: try (intros Hsym; by rewrite Hsym).
  intros Htrans [= Hxy] [= Hyz]. by rewrite (Htrans _ _ _ Hxy Hyz).
Qed.

(** X13. The two [operator==] agree: comparing a well-formed container with
    a bare value [x] gives what comparing it with a container that holds [x]
    gives. *)
Theorem equality_overloads_agree (T_eq : T → T → bool) σ this other d x :
  heap σ !! this = Some d → well_formed d → holds σ other x →
  operator_eq_value T_eq this x σ = operator_eq_optional T_eq this other σ.
Proof.
  intros Hd Hwd Ho.
  rewrite (operator_eq_value_run T_eq _ _ _ _ Hd Hwd).
  rewrite (operator_eq_optional_run T_eq _ _ _ _ _ Hd Hwd Ho I).
  by destruct (value_ d).
Qed.

(** X14. Assignment and equality.  After copy-assignment from a distinct,
    well-formed source the source is the object it was and, [T]'s
    [operator==] being reflexive, destination and source compare equal.
    After move-assignment from a distinct source that held a value they
    compare unequal: the destination holds the value and the source
    nothing. *)
Theorem assignment_then_equality (T_eq : T → T → bool) σ this other d s :
  this ≠ other →
  heap σ !! this = Some d → well_formed d →
  heap σ !! other = Some s → well_formed s →
  (∀ x, T_eq x x = true) →
  (let σ1 := final (operator_assign_copy this other σ) in
   heap σ1 !! other = Some s ∧
   operator_eq_optional T_eq this other σ1 = (Ret true, σ1)) ∧
  (∀ y, s = mkOptional (Init true) (Live y) →
     let σ2 := final (operator_assign_move this other σ) in
     operator_eq_optional T_eq this other σ2 = (Ret false, σ2)).
Proof.
  intros Hne Hd Hwd Hs Hws Hrefl. split.
  - destruct (well_formed_cases _ Hws) as [-> | [y ->]].
    + rewrite (operator_assign_copy_no_source _ _ _ _ Hd Hwd) by auto.
      cbn [final snd]. set (σ1 := update _ _ _ _).
      assert (H1 : heap σ1 !! this = Some (mkOptional (Init false) Raw))
        by apply update_lookup.
      assert (H2 : heap σ1 !! other = Some (mkOptional (Init false) Raw))
        by (unfold σ1; by rewrite update_lookup_ne).
      split; [done |].
      by rewrite (operator_eq_optional_run T_eq _ _ _ _ _ H1 I H2 I).
    + rewrite (operator_assign_copy_holds _ _ _ _ _ Hd Hwd Hne Hs).
      cbn [final snd]. set (σ1 := update _ _ _ _).
      assert (H1 : heap σ1 !! this = Some (mkOptional (Init true) (Live y)))
        by apply update_lookup.
      assert (H2 : heap σ1 !! other = Some (mkOptional (Init true) (Live y)))
        by (unfold σ1; by rewrite update_lookup_ne).
      split; [done |].
      rewrite (operator_eq_optional_run T_eq _ _ _ _ _ H1 I H2 I). cbn.
      by rewrite Hrefl.
  - intros y ->.
    rewrite (operator_assign_move_holds _ _ _ _ _ Hd Hwd Hne Hs).
    cbn [final snd]. set (σ2 := update _ _ _ _).
    assert (H1 : heap σ2 !! this = Some (mkOptional (Init true) (Live y)))
      by apply update_lookup.
    assert (H2 : heap σ2 !! other = Some (mkOptional (Init false) Raw)).
    { unfold σ2. rewrite update_lookup_ne by done. apply update_lookup. }
    by rewrite (operator_eq_optional_run T_eq _ _ _ _ _ H1 I H2 I).
Qed.

End Equality.

(** * Constructions and destructions add up *)



Section Balance.

Context {T : Type}.
Implicit Types (σ : machine T) (o d s : Optional T) (l this other self : loc) (v w : T).


(** X16. A call on an lvalue keeps the container present.  On a container
    that holds [v] and is seen as an lvalue, [and_then(fn)] and
    [transform(fn)] destroy nothing and construct nothing in its buffer; the
    container still holds a value afterwards: [v] for a const lvalue, and
    what [fn] left in its argument for a mutable one. *)
Theorem lvalue_call_keeps_the_value {R} cat σ self (fn : callable T R) v :
  holds σ self v → cat ≠ Rvalue →
  let v' := match cat with Lvalue => arg_after fn v | _ => v end in
  let σa := final (and_then cat self fn σ) in
  let σt := final (transform cat self fn σ) in
  σa = σt ∧
  holds σt self v' ∧
  since σ σt = [ECall v] ∧
  has_value self σt = (Ret true, σt) ∧
  value_const_lvalue self σt = (Ret v', σt).
Proof.
  intros H Hc.
  rewrite (and_then_holds _ _ _ _ _ H), (transform_holds _ _ _ _ _ H).
  cbn [final snd].
  assert (Hh : holds (after_invoke cat σ self fn v) self
                 (match cat with Lvalue => arg_after fn v | _ => v end)).
  { destruct cat; try done; cbn [after_invoke]. apply update_lookup. }
  repeat split; try done.
  - destruct cat; try done; cbn [after_invoke].
    + by rewrite since_update.
    + by rewrite since_log.
  - by eapply load_has_value__run.
  - by apply value_const_lvalue_holds.
Qed.

End Balance.

(** * The theorems at concrete stores of [Optional<int>] *)

Lemma clear_empties_and_is_idempotent_witness :
  (heap store_42 !! 0 = Some (some_int 42) ∧ well_formed (some_int 42)) ∧
  let σ1 := final (clear 0 store_42) in
  let σ2 := final (clear 0 σ1) in
  result (clear 0 store_42) = Ret tt ∧
  vacant σ1 0 ∧
  has_value 0 σ1 = (Ret false, σ1) ∧
  destroy_count 0 (since store_42 σ1) = live_at store_42 0 ∧
  result (clear 0 σ1) = Ret tt ∧
  destroy_count 0 (since σ1 σ2) = 0 ∧
  heap σ2 = heap σ1.
Proof.
  split; [by split |].
  apply (clear_empties_and_is_idempotent store_42 0 (some_int 42)); [reflexivity | exact I].
Defined.

Lemma emplace_replaces_the_value_witness :
  (heap store_42 !! 0 = Some (some_int 42) ∧ well_formed (some_int 42) ∧
   checked_ctor 5%Z = inr 5%Z) ∧
  let σ1 := final (emplace checked_ctor 0 5%Z store_42) in
  result (emplace checked_ctor 0 5%Z store_42) = Ret tt ∧
  holds σ1 0 5%Z ∧
  destroy_count 0 (since store_42 σ1) = live_at store_42 0 ∧
  construct_count 0 (since store_42 σ1) = 1 ∧
  has_value 0 σ1 = (Ret true, σ1) ∧
  value_lvalue 0 σ1 = (Ret 5%Z, σ1) ∧
  result (release_value 0 σ1) = Ret 5%Z.
Proof.
  split; [by repeat split |].
  apply (emplace_replaces_the_value checked_ctor store_42 0 (some_int 42) 5%Z 5%Z);
    [reflexivity | exact I | reflexivity].
Defined.

Lemma constructors_establish_presence_witness :
  checked_ctor 5%Z = inr 5%Z ∧
  (let σ0 := final (Optional_default 1 store_42) in
   vacant σ0 1 ∧ has_value 1 σ0 = (Ret false, σ0) ∧
   operator_bool 1 σ0 = (Ret false, σ0) ∧
   value_lvalue 1 σ0 = (Throw BadAccess, σ0)) ∧
  (let σ0 := final (Optional_nullopt 1 store_42) in
   vacant σ0 1 ∧ has_value 1 σ0 = (Ret false, σ0) ∧
   operator_bool 1 σ0 = (Ret false, σ0) ∧
   value_lvalue 1 σ0 = (Throw BadAccess, σ0)) ∧
  (let σ1 := final (Optional_forward checked_ctor 1 5%Z store_42) in
   result (Optional_forward checked_ctor 1 5%Z store_42) = Ret tt ∧
   holds σ1 1 5%Z ∧ has_value 1 σ1 = (Ret true, σ1) ∧
   operator_bool 1 σ1 = (Ret true, σ1) ∧
   value_lvalue 1 σ1 = (Ret 5%Z, σ1) ∧
   since store_42 σ1 = [EConstruct 1 5%Z; EFlag 1 true]).
Proof.
  split; [reflexivity |].
  apply (constructors_establish_presence checked_ctor store_42 1 5%Z 5%Z). reflexivity.
Defined.

Lemma copy_constructor_copies_independently_witness :
  (1 ≠ 0 ∧ holds store_42 0 42%Z ∧ checked_ctor 5%Z = inr 5%Z) ∧
  let σ1 := final (Optional_copy 1 0 store_42) in
  let σ2 := final (emplace checked_ctor 1 5%Z σ1) in
  let σ3 := final (emplace checked_ctor 0 5%Z σ1) in
  result (Optional_copy 1 0 store_42) = Ret tt ∧
  since store_42 σ1 = [EConstruct 1 42%Z; EFlag 1 true] ∧
  holds σ1 1 42%Z ∧ holds σ1 0 42%Z ∧
  holds σ2 1 5%Z ∧ holds σ2 0 42%Z ∧
  holds σ3 0 5%Z ∧ holds σ3 1 42%Z.
Proof.
  split; [by repeat split |].
  apply (copy_constructor_copies_independently checked_ctor store_42 1 0 42%Z 5%Z 5%Z);
    [discriminate | reflexivity | reflexivity].
Defined.

Lemma copy_constructor_from_empty_leaves_flag_unset_witness :
  (1 ≠ 0 ∧ vacant store_empty 0) ∧
  let σ1 := final (Optional_copy 1 0 store_empty) in
  result (Optional_copy 1 0 store_empty) = Ret tt ∧
  since store_empty σ1 = [] ∧
  heap σ1 !! 1 = Some (mkOptional Indeterminate Raw) ∧
  has_value 1 σ1 = (Undefined, σ1) ∧
  result (Optional_dtor 1 σ1) = Undefined.
Proof.
  split; [by split |].
  apply (copy_constructor_from_empty_leaves_flag_unset store_empty 1 0);
    [discriminate | reflexivity].
Defined.

Lemma operator_deref_is_checked_value_witness :
  (vacant store_empty 0 ∧ holds store_42 0 42%Z) ∧
  operator_deref Lvalue 0 store_empty = (Throw BadAccess, store_empty) ∧
  result (operator_deref Rvalue 0 store_42) = Ret 42%Z ∧
  vacant (final (operator_deref Rvalue 0 store_42)) 0.
Proof.
  split; [by split |].
  pose proof (operator_deref_is_checked_value Lvalue 0 store_empty) as (_ & He & _).
  pose proof (operator_deref_is_checked_value Rvalue 0 store_42) as (_ & _ & Hp).
  destruct (Hp 42%Z) as (Hr & _ & Hv); [reflexivity |].
  split; [apply He; reflexivity |]. split; [exact Hr | by apply Hv].
Defined.

(** Every container of the two-container store is well formed. *)
Lemma wf_store_42_7 : wf_store store_42_7.
Proof.
  intros l o. unfold store_42_7. cbn. rewrite lookup_insert.
  case_decide; [by intros [= <-] |].
  rewrite lookup_singleton. case_decide; [by intros [= <-] | done].
Qed.

Lemma methods_keep_containers_well_formed_witness :
  (wf_store store_42_7 ∧ heap store_42_7 !! 0 = Some (some_int 42) ∧
   heap store_42_7 !! 1 = Some (some_int 7) ∧ checked_ctor 5%Z = inr 5%Z) ∧
  wf_store (final (clear 0 store_42_7)) ∧
  wf_store (final (release_value 0 store_42_7)) ∧
  wf_store (final (emplace checked_ctor 0 5%Z store_42_7)) ∧
  wf_store (final (value_or Rvalue 0 9%Z store_42_7)) ∧
  wf_store (final (operator_deref Rvalue 0 store_42_7)) ∧
  wf_store (final (and_then Rvalue 0 bump store_42_7)) ∧
  wf_store (final (transform Rvalue 0 bump store_42_7)) ∧
  wf_store (final (operator_assign_copy 0 1 store_42_7)) ∧
  wf_store (final (operator_assign_move 0 1 store_42_7)).
Proof.
  split; [repeat split; apply wf_store_42_7 |].
  apply (methods_keep_containers_well_formed checked_ctor Rvalue store_42_7 0 1
           (some_int 42) (some_int 7) bump 5%Z 5%Z 9%Z);
    [apply wf_store_42_7 | reflexivity | reflexivity | reflexivity].
Defined.

Lemma destructor_destroys_once_witness :
  (heap store_42 !! 0 = Some (some_int 42) ∧ well_formed (some_int 42)) ∧
  let σ1 := final (Optional_dtor 0 store_42) in
  result (Optional_dtor 0 store_42) = Ret tt ∧
  heap σ1 !! 0 = None ∧
  destroy_count 0 (since store_42 σ1) = live_at store_42 0 ∧
  construct_count 0 (since store_42 σ1) = 0 ∧
  has_value 0 σ1 = (Undefined, σ1) ∧
  (∀ v, holds store_42 0 v →
     let σ2 := final (Optional_dtor 0 (final (release_value 0 store_42))) in
     since store_42 σ2 = [EDestroy 0 v; EFlag 0 false; EFlag 0 false]).
Proof.
  split; [by split |].
  apply (destructor_destroys_once store_42 0 (some_int 42)); [reflexivity | exact I].
Defined.

Lemma release_value_is_value_then_clear_witness :
  holds store_42 0 42%Z ∧
  release_value 0 store_42
  = bind (value_lvalue 0) (λ x, bind (clear 0) (λ _, ret x)) store_42.
Proof.
  split; [reflexivity |].
  apply (release_value_is_value_then_clear store_42 0 42%Z). reflexivity.
Defined.

Lemma equality_inherits_equivalence_witness :
  operator_eq_optional int_eq 0 0 store_42_7 = (Ret true, store_42_7) ∧
  operator_eq_optional int_eq 0 1 store_42_7 = operator_eq_optional int_eq 1 0 store_42_7.
Proof.
  pose proof (equality_inherits_equivalence int_eq store_42_7 0 1 0
                (some_int 42) (some_int 7) (some_int 42)
                eq_refl I eq_refl I eq_refl I) as (Hrefl & Hsym & _).
  split.
  - apply Hrefl. intros x. apply Z.eqb_refl.
  - apply Hsym. intros x y. apply Z.eqb_sym.
Defined.

Lemma equality_overloads_agree_witness :
  (heap store_42_7 !! 0 = Some (some_int 42) ∧ well_formed (some_int 42) ∧
   holds store_42_7 1 7%Z) ∧
  operator_eq_value int_eq 0 7%Z store_42_7 = operator_eq_optional int_eq 0 1 store_42_7.
Proof.
  split; [by repeat split |].
  apply (equality_overloads_agree int_eq store_42_7 0 1 (some_int 42) 7%Z);
    [reflexivity | exact I | reflexivity].
Defined.

Lemma assignment_then_equality_witness :
  (let σ1 := final (operator_assign_copy 0 1 store_42_7) in
   heap σ1 !! 1 = Some (some_int 7) ∧
   operator_eq_optional int_eq 0 1 σ1 = (Ret true, σ1)) ∧
  (let σ2 := final (operator_assign_move 0 1 store_42_7) in
   operator_eq_optional int_eq 0 1 σ2 = (Ret false, σ2)).
Proof.
  pose proof (assignment_then_equality int_eq store_42_7 0 1 (some_int 42) (some_int 7)) as H.
  destruct H as (Hcopy & Hmove);
    [discriminate | reflexivity | exact I | reflexivity | exact I
    | intros x; apply Z.eqb_refl |].
  split; [exact Hcopy | exact (Hmove 7%Z eq_refl)].
Defined.


Lemma lvalue_call_keeps_the_value_witness :
  (holds store_42 0 42%Z ∧ Lvalue ≠ Rvalue) ∧
  let v' := arg_after bump 42%Z in
  let σa := final (and_then Lvalue 0 bump store_42) in
  let σt := final (transform Lvalue 0 bump store_42) in
  σa = σt ∧
  holds σt 0 v' ∧
  since store_42 σt = [ECall 42%Z] ∧
  has_value 0 σt = (Ret true, σt) ∧
  value_const_lvalue 0 σt = (Ret v', σt).
Proof.
  split; [by split |].
  apply (lvalue_call_keeps_the_value Lvalue store_42 0 bump 42%Z);
    [reflexivity | discriminate].
Defined.

(** * Moves and chains *)

Section MovesAndChains.

Context {T : Type}.
Implicit Types (σ : machine T) (o d s : Optional T) (l this other self : loc) (v w : T).

(** X17. The move constructor on a present source, for every store: the
    value is released from the source (its instance destroyed, its flag
    cleared) and then constructed into the new container before the new
    flag is set.  Afterwards the new container holds the value, the source
    is empty, [release_value()] on the source throws [BadAccess], and the
    source can be filled again without disturbing the new container. *)
Theorem move_constructor_transfers_the_value {Args} (T_ctor : Args → exn + T)
    σ this other v args w :
  this ≠ other → holds σ other v → T_ctor args = inr w →
  let σ1 := final (Optional_move this other σ) in
  let σ2 := final (emplace T_ctor other args σ1) in
  result (Optional_move this other σ) = Ret tt ∧
  since σ σ1
  = [EDestroy other v; EFlag other false; EConstruct this v; EFlag this true] ∧
  holds σ1 this v ∧ vacant σ1 other ∧
  release_value other σ1 = (Throw BadAccess, σ1) ∧
  holds σ2 other w ∧ holds σ2 this v.
Proof.
  intros Hne Ho Hw.
  rewrite (Optional_move_holds _ _ _ _ Hne Ho). cbn [final result fst snd].
  set (σ1 := update _ _ _ _).
  assert (H1 : holds σ1 this v) by apply update_lookup.
  assert (H2 : vacant σ1 other).
  { unfold vacant, σ1. rewrite update_lookup_ne by done. apply update_lookup. }
  rewrite (emplace_run _ _ _ _ _ _ H2 I Hw). cbn [final snd].
  repeat split; try done.
  - unfold σ1. by erewrite since_extend by (cbn; rewrite app_nil_r; reflexivity).
  - by eapply release_value_inactive.
  - apply update_lookup.
  - unfold holds. rewrite update_lookup_ne by done. apply H1.
Qed.

(** X18. Chaining [and_then].  The result of [and_then] is the container
    itself, in the value category it was called on, so a second call can
    follow.  On a container that holds [v]: as a const lvalue both functions
    are called on [v]; as a mutable lvalue the second is called on what the
    first left in the value; as an rvalue the first call has released the
    value, so the second function is not called at all. *)
Theorem and_then_chain {R R'} cat σ self (fn : callable T R) (gn : callable T R') v :
  holds σ self v →
  let chain := bind (and_then cat self fn) (λ r, and_then cat r gn) in
  result (chain σ) = Ret self ∧
  List.filter is_call (since σ (final (chain σ)))
  = match cat with
    | Lvalue => [ECall v; ECall (arg_after fn v)]
    | ConstLvalue => [ECall v; ECall v]
    | Rvalue => [ECall v]
    end.
Proof.
  intros H chain. unfold chain.
  erewrite bind_Ret by (by apply and_then_holds).
  destruct cat; cbn [after_invoke].
  - erewrite and_then_holds by apply update_lookup.
    cbn [after_invoke result final fst snd]. rewrite update_update.
    by rewrite since_update.
  - erewrite and_then_holds by apply H.
    cbn [after_invoke result final fst snd].
    unfold since, log. cbn. by rewrite <- app_assoc, drop_app_length.
  - erewrite and_then_vacant by apply update_lookup.
    cbn [result final fst snd]. by rewrite since_update.
Qed.

End MovesAndChains.

Lemma move_constructor_transfers_the_value_witness :
  (1 ≠ 0 ∧ holds store_42 0 42%Z ∧ checked_ctor 5%Z = inr 5%Z) ∧
  let σ1 := final (Optional_move 1 0 store_42) in
  let σ2 := final (emplace checked_ctor 0 5%Z σ1) in
  result (Optional_move 1 0 store_42) = Ret tt ∧
  since store_42 σ1
  = [EDestroy 0 42%Z; EFlag 0 false; EConstruct 1 42%Z; EFlag 1 true] ∧
  holds σ1 1 42%Z ∧ vacant σ1 0 ∧
  release_value 0 σ1 = (Throw BadAccess, σ1) ∧
  holds σ2 0 5%Z ∧ holds σ2 1 42%Z.
Proof.
  split; [by repeat split |].
  apply (move_constructor_transfers_the_value checked_ctor store_42 1 0 42%Z 5%Z 5%Z);
    [discriminate | reflexivity | reflexivity].
Defined.

Lemma and_then_chain_witness :
  holds store_42 0 42%Z ∧
  let chain := bind (and_then Rvalue 0 bump) (λ r, and_then Rvalue r double) in
  result (chain store_42) = Ret 0 ∧
  List.filter is_call (since store_42 (final (chain store_42))) = [ECall 42%Z].
Proof.
  split; [reflexivity |].
  apply (and_then_chain Rvalue store_42 0 bump double 42%Z). reflexivity.
Defined.
